(** * reana-client-go: the filter and projection subsystem

    A shallow embedding of the filter parser ([ParseFilterParameters]), the
    column projector ([FormatData]), the job-log filter ([filterJobLogs]),
    the human-friendly log display ([displayHumanFriendlyLogs]) and the
    disk-usage display ([displayDuPayload]), with the properties that the
    specification states about them.

    Go values are modelled as follows: a [string] is a sequence of bytes
    (Rocq's [string]); a slice is a [list]; a [map[string]T] is a
    [gmap string T]; a call that can panic, terminate the process with
    [os.Exit] or (in the model only) run out of loop fuel returns an
    [outcome]. *)

From Stdlib Require Import ZArith Lia String Ascii.
From stdpp Require Import base tactics option list strings gmap fin_maps pretty sorting.

Open Scope string_scope.
Open Scope list_scope.
Open Scope nat_scope.

(** ** Outcomes of a Go call *)

Inductive outcome (A : Type) : Type :=
| Returns (a : A)                       (* normal return *)
| Panics                                (* run-time panic (index out of range) *)
| Exits (status : Z) (stdout : string)  (* os.Exit(status) after printing stdout *)
| OutOfFuel.                            (* the model's loop bound was too small *)
Arguments Returns {A} a.
Arguments Panics {A}.
Arguments Exits {A} status stdout.
Arguments OutOfFuel {A}.

#[global] Instance outcome_ret : MRet outcome := @Returns.
#[global] Instance outcome_bind : MBind outcome := λ A B k m,
  match m with
  | Returns a => k a
  | Panics => Panics
  | Exits c s => Exits c s
  | OutOfFuel => OutOfFuel
  end.

(** A Go [error] value is modelled by its message; [None] is [nil]. *)
Definition error : Type := string.

(** ** Go's strings and slices packages, as far as the sources use them *)

Definition newline : string := String "010"%char "".
Definition dquote : string := String "034"%char "".

(** [strings.Contains(s, sep)] for a one-byte separator. *)
Fixpoint Contains (s : string) (sep : ascii) : bool :=
  match s with
  | EmptyString => false
  | String c s' => if decide (c = sep) then true else Contains s' sep
  end.

(** The text before and after the first [sep] of [s], if there is one. *)
Fixpoint cut (s : string) (sep : ascii) : option (string * string) :=
  match s with
  | EmptyString => None
  | String c s' =>
      if decide (c = sep) then Some ("", s')
      else match cut s' sep with
           | Some (a, b) => Some (String c a, b)
           | None => None
           end
  end.

(** [strings.SplitN(s, sep, 2)] for a one-byte separator. *)
Definition SplitN2 (s : string) (sep : ascii) : list string :=
  match cut s sep with
  | Some (a, b) => [a; b]
  | None => [s]
  end.

(** [strings.HasPrefix(s, prefix)]. *)
Fixpoint HasPrefix (s prefix : string) : bool :=
  match prefix, s with
  | EmptyString, _ => true
  | String p prefix', String c s' => if decide (c = p) then HasPrefix s' prefix' else false
  | String _ _, EmptyString => false
  end.

(** [strings.Contains(s, substr)] for any [substr]. *)
Fixpoint ContainsStr (s substr : string) : bool :=
  if HasPrefix s substr then true
  else match s with
       | EmptyString => false
       | String _ s' => ContainsStr s' substr
       end.

(** [strings.Join(elems, sep)]. *)
Fixpoint Join (elems : list string) (sep : string) : string :=
  match elems with
  | [] => ""
  | [e] => e
  | e :: rest => e +:+ sep +:+ Join rest sep
  end.

(** [slices.Contains(s, v)]. *)
Definition slices_Contains (s : list string) (v : string) : bool :=
  bool_decide (v ∈ s).

(** ** Slices *)

(** [append(s[:i], s[i+1:]...)]: the slice without its element at index [i].
    The expression [s[i+1:]] panics when [i+1 > len(s)]. *)
Definition remove_at {A : Type} (i : nat) (s : list A) : outcome (list A) :=
  if decide (i < length s) then Returns (take i s ++ drop (S i) s) else Panics.

(** ** utils.FormatData *)

Section FormatData.
Context {any : Type}.
(** [fmt.Sprint] on a table cell. *)
Variable Sprint : any → string.
Variable formatFilters : gmap string string.

(** The loop [for row := range *data] that drops the cell at [col] from
    every row. The rows are taken not to share their backing arrays (the
    rows that the commands build do not), so that shortening one row in
    place leaves the others as they are. *)
Fixpoint remove_column (col : nat) (data : list (list any)) : outcome (list (list any)) :=
  match data with
  | [] => Returns []
  | r :: rest =>
      r' ← remove_at col r;
      rest' ← remove_column col rest;
      Returns (r' :: rest')
  end.

(** The loop [for row := 0; row < len( *data); row++] that drops the rows
    whose cell at [col] does not print as [filter]. After a removal the
    source decrements [row] before the loop increments it, so the cursor
    stays where it is. *)
Fixpoint filter_rows (fuel col : nat) (filter : string) (row : nat)
    (data : list (list any)) : outcome (list (list any)) :=
  if decide (row < length data) then
    match fuel with
    | 0 => OutOfFuel
    | S fuel' =>
        match data !! row ≫= (.!! col) with
        | None => Panics
        | Some x =>
            if decide (Sprint x ≠ filter)
            then filter_rows fuel' col filter row (take row data ++ drop (S row) data)
            else filter_rows fuel' col filter (S row) data
        end
    end
  else Returns data.

(** The loop [for col := 0; col < len( *header); col++]. After the removal
    of a column the source decrements [col] before the loop increments it,
    so the column that moved into the place of the removed one is looked
    at next. *)
Fixpoint format_columns (fuel col : nat) (header : list string)
    (data : list (list any)) : outcome (list string * list (list any)) :=
  if decide (col < length header) then
    match fuel with
    | 0 => OutOfFuel
    | S fuel' =>
        match header !! col with
        | None => Panics
        | Some name =>
            match formatFilters !! name with
            | None =>
                let header' := take col header ++ drop (S col) header in
                data' ← remove_column col data;
                format_columns fuel' col header' data'
            | Some filter =>
                if decide (filter ≠ "")
                then data' ← filter_rows (length data) col filter 0 data;
                     format_columns fuel' (S col) header data'
                else format_columns fuel' (S col) header data
            end
        end
    end
  else Returns (header, data).

(** [FormatData(data, header, formatFilters)]; the result is the final
    contents of [*header] and [*data]. Every iteration of the column loop
    either advances [col] or shortens the header, so [len( *header)]
    iterations are enough. *)
Definition FormatData (data : list (list any)) (header : list string)
    : outcome (list string * list (list any)) :=
  if decide (size formatFilters = 0) then Returns (header, data)
  else format_columns (length header) 0 header data.

(** *** What the projector is meant to compute *)

(** A column is wanted when the rule set names it. *)
Definition wanted (name : string) : Prop := is_Some (formatFilters !! name).

(** The cells of [row] at the positions of the wanted columns. *)
Definition projected (header : list string) (row : list any) : list any :=
  (filter (λ p, wanted p.1) (zip header row)).*2.

(** A cell satisfies the rule of its column: no rule, an empty rule value,
    or a rule value that the cell prints as. *)
Definition cell_ok (name : string) (x : any) : Prop :=
  match formatFilters !! name with
  | Some v => v = "" ∨ Sprint x = v
  | None => True
  end.

Definition row_ok (header : list string) (row : list any) : Prop :=
  Forall (λ p, cell_ok p.1 p.2) (zip header row).

#[global] Instance cell_ok_dec name x : Decision (cell_ok name x).
Proof. unfold cell_ok. destruct (formatFilters !! name); apply _. Defined.

#[global] Instance row_ok_dec header row : Decision (row_ok header row).
Proof. unfold row_ok. apply _. Defined.

(** Every row has one cell per header column. *)
Definition aligned (header : list string) (data : list (list any)) : Prop :=
  Forall (λ r, length r = length header) data.

(** The test of the row loop: the cell at [col] exists and prints as [v]. *)
Definition prints_as (col : nat) (v : string) (r : list any) : Prop :=
  Sprint <$> r !! col = Some v.

#[global] Instance prints_as_dec col v r : Decision (prints_as col v r).
Proof. unfold prints_as. apply _. Defined.

(** The invariant of the column loop: the columns before [col] are wanted
    and, where their rule has a value, every row prints as that value
    there. *)
Definition settled (col : nat) (header : list string) (data : list (list any)) : Prop :=
  ∀ i name, i < col → header !! i = Some name →
    ∃ v, formatFilters !! name = Some v ∧ (v = "" ∨ Forall (prints_as i v) data).

End FormatData.

(** ** utils.go: run statuses, prefixes and the filter parser *)

Definition FilesBlacklist : list string := [".git/"; "/.git/"].

Definition GetRunStatuses (includeDeleted : bool) : list string :=
  let runStatuses :=
    ["created"; "running"; "finished"; "failed"; "stopped"; "queued"; "pending"] in
  if includeDeleted then runStatuses ++ ["deleted"] else runStatuses.
Arguments GetRunStatuses : simpl never.

Fixpoint HasAnyPrefix (s : string) (prefixes : list string) : bool :=
  match prefixes with
  | [] => false
  | prefix :: rest => if HasPrefix s prefix then true else HasAnyPrefix s rest
  end.

(** The two accumulators of [ParseFilterParameters]. *)
Record parse_state : Type := {
  searchFilters : gmap string (list string);
  statusFilters : list string
}.

Definition parse_init : parse_state :=
  {| searchFilters := ∅; statusFilters := [] |}.

Definition msg_wrong_format : string :=
  "Error: Wrong input format. Please use --filter filter_name=filter_value" +:+ newline.
Definition msg_invalid_filter (filterName : string) : string :=
  "Error: Filter " +:+ filterName +:+ " is not valid".
Definition msg_invalid_status (filterValue : string) : string :=
  "Error: Input status value " +:+ filterValue +:+ " is not valid. ".

Section ParseFilterParameters.
(** [strings.ToLower]. *)
Variable ToLower : string → string.
(** [json.Marshal] on a [map[string][]string], converted to a string; on
    this type it returns no error, so the branch [err != nil] of the source
    is not reachable. *)
Variable json_Marshal : gmap string (list string) → string.

(** One iteration of the loop [for _, value := range filter]. *)
Definition parse_token (filterNames : list string) (st : parse_state)
    (value : string) : outcome parse_state :=
  if negb (Contains value "=") then Exits 1 msg_wrong_format
  else
    let filterNameAndValue := SplitN2 value "=" in
    match filterNameAndValue !! 0, filterNameAndValue !! 1 with
    | Some name, Some filterValue =>
        let filterName := ToLower name in
        if negb (slices_Contains filterNames filterName)
        then Exits 1 (msg_invalid_filter filterName)
        else if bool_decide (filterName = "status")
                && negb (slices_Contains (GetRunStatuses true) filterValue)
        then Exits 1 (msg_invalid_status filterValue)
        else if bool_decide (filterName = "status")
        then Returns {| searchFilters := searchFilters st;
                        statusFilters := statusFilters st ++ [filterValue] |}
        else Returns {| searchFilters :=
                          <[filterName :=
                              default [] (searchFilters st !! filterName) ++ [filterValue]]>
                            (searchFilters st);
                        statusFilters := statusFilters st |}
    | _, _ => Panics
    end.

Fixpoint parse_tokens (filterNames : list string) (st : parse_state)
    (filter : list string) : outcome parse_state :=
  match filter with
  | [] => Returns st
  | value :: rest =>
      st' ← parse_token filterNames st value;
      parse_tokens filterNames st' rest
  end.

(** [ParseFilterParameters(filter, filterNames)] returns
    [(statusFilters, searchFiltersString)]. *)
Definition ParseFilterParameters (filter filterNames : list string)
    : outcome (list string * string) :=
  st ← parse_tokens filterNames parse_init filter;
  let searchFiltersString :=
    if decide (0 < size (searchFilters st)) then json_Marshal (searchFilters st) else "" in
  Returns (statusFilters st, searchFiltersString).

(** *** The tokens as the parser reads them *)

(** The lowercased key of a token that contains [=]. *)
Definition token_key (value : string) : option string :=
  match cut value "=" with
  | Some (name, _) => Some (ToLower name)
  | None => None
  end.

Definition token_value (value : string) : option string :=
  match cut value "=" with
  | Some (_, v) => Some v
  | None => None
  end.

(** A token that the loop body accepts. *)
Definition token_valid (filterNames : list string) (value : string) : Prop :=
  ∃ key v, token_key value = Some key ∧ token_value value = Some v ∧
    key ∈ filterNames ∧ (key = "status" → v ∈ GetRunStatuses true).

(** The values, in input order, of the tokens whose lowercased key is [key]. *)
Fixpoint values_of (key : string) (filter : list string) : list string :=
  match filter with
  | [] => []
  | value :: rest =>
      match token_key value, token_value value with
      | Some k, Some v => if decide (k = key) then v :: values_of key rest else values_of key rest
      | _, _ => values_of key rest
      end
  end.

End ParseFilterParameters.

(** ** Output of the commands *)

(** The dynamically typed values ([any]) that the commands put in tables. *)
Inductive cell : Type :=
| CInt (n : Z)
| CStr (s : string).

(** [fmt.Sprint] on such a value. *)
Definition Sprint_cell (c : cell) : string :=
  match c with
  | CInt n => pretty n
  | CStr s => s
  end.

Inductive stream : Type := Stdout | Stderr.

(** [displayer]'s message types and [go-pretty]'s text attributes. *)
Inductive msgType : Type := Success | Error | Info.
Inductive color : Type :=
| Bold
| FgYellow
| JobStatusToColor (status : string).

(** The calls by which a command writes; the packages that implement them
    ([displayer], [cobra]) are outside the sources at hand. *)
Inductive event : Type :=
| Println (text : string)
| PrintColorable (text : string) (w : stream) (colors : list color)
| DisplayMessage (message : string) (t : msgType) (indented : bool) (w : stream)
| DisplayTable (header : list string) (rows : list (list cell)) (w : stream).

(** ** logs.go *)

Record jobLogItem : Type := {
  WorkflowUuid : string;
  JobName : string;
  ComputeBackend : string;
  BackendJobId : string;
  DockerImg : string;
  Cmd : string;
  Status : string;
  Logs : string;
  StartedAt : option string;
  FinishedAt : option string
}.

Record logs : Type := {
  WorkflowLogs : option string;
  JobLogs : gmap string jobLogItem;
  EngineSpecific : option string
}.

(** A [jobLogItem] after [json.Marshal] and [json.Unmarshal] into a
    [map[string]string]: one entry per JSON property; a [nil] pointer is
    written as [null] and read back as the empty string. The strings are
    those of a decoded JSON document, which the round trip preserves. *)
Definition jobLogItem_json (j : jobLogItem) : gmap string string :=
  list_to_map [
    ("workflow_uuid", WorkflowUuid j);
    ("job_name", JobName j);
    ("compute_backend", ComputeBackend j);
    ("backend_job_id", BackendJobId j);
    ("docker_img", DockerImg j);
    ("cmd", Cmd j);
    ("status", Status j);
    ("logs", Logs j);
    ("started_at", default "" (StartedAt j));
    ("finished_at", default "" (FinishedAt j))
  ].

(** Modelled from the spec: the package [filterer] is not among the
    sources. A [Filters] value holds the declared single- and multi-valued
    keys and, per key, the value or the ordered values assigned to it. *)
Record Filters : Type := {
  SingleFilterKeys : list string;
  MultiFilterKeys : list string;
  singleFilters : gmap string string;
  multiFilters : gmap string (list string)
}.

(** Modelled from the spec: [Filters.GetSingle] of the package [filterer]
    returns the value assigned to a single-valued key, the empty string
    when none was assigned. [filterJobLogs], its only caller in the
    sources, discards the error that it returns next to the value. *)
Definition GetSingle (f : Filters) (key : string) : string :=
  default "" (singleFilters f !! key).

Section Logs.
Variable ToLower : string → string.
(** [config.ReanaComputeBackends]: from a lowercased backend alias to the
    identifier that job logs carry. The table is a constant of a package
    outside the sources. *)
Variable ReanaComputeBackends : gmap string string.
(** [config.LeadingMark]. *)
Variable LeadingMark : string.

(** The value that the key [filterKey] is compared with (lines 196-199). *)
Definition filter_value (filters : Filters) (filterKey : string) : string :=
  let filterValue := GetSingle filters filterKey in
  if decide (filterKey = "compute_backend")
  then default "" (ReanaComputeBackends !! ToLower filterValue)
  else filterValue.

(** The loop over [filters.SingleFilterKeys] for one job: [true] when the
    job's key is appended to [unwantedLogs] (after which the loop breaks). *)
Fixpoint unwanted (filters : Filters) (jobLogValue : gmap string string)
    (keys : list string) : bool :=
  match keys with
  | [] => false
  | filterKey :: rest =>
      let filterValue := filter_value filters filterKey in
      if decide (filterValue ≠ "" ∧ default "" (jobLogValue !! filterKey) ≠ filterValue)
      then true
      else unwanted filters jobLogValue rest
  end.

(** The loop [for jobLogKey, jobLogValue := range jobLogsMap]; the order
    in which Go visits a map is unspecified, here it is that of
    [map_to_list]. *)
Definition unwantedLogs (jobLogs : gmap string jobLogItem) (filters : Filters)
    : list string :=
  let jobLogsMap := jobLogItem_json <$> jobLogs in
  (filter (λ kv, unwanted filters kv.2 (SingleFilterKeys filters)) (map_to_list jobLogsMap)).*1.

(** [filterJobLogs(&jobLogs, filters)]: the map that [jobLogs] points to
    afterwards, and the returned error. *)
Definition filterJobLogs (jobLogs : gmap string jobLogItem) (filters : Filters)
    : gmap string jobLogItem * option error :=
  (foldl (λ m log, delete log m) jobLogs (unwantedLogs jobLogs filters), None).

(** *** What the filter is meant to keep *)

(** The JSON property [key] of a job; a key that is no property of a job
    reads as the empty string, as a missing key of a Go map does. *)
Definition field (j : jobLogItem) (key : string) : string :=
  default "" (jobLogItem_json j !! key).

(** Some single-valued key has a value to compare with and the job's field
    differs from it. *)
Definition rejected (filters : Filters) (j : jobLogItem) : Prop :=
  Exists (λ key, filter_value filters key ≠ "" ∧ field j key ≠ filter_value filters key)
    (SingleFilterKeys filters).

#[global] Instance rejected_dec filters j : Decision (rejected filters j).
Proof. unfold rejected. apply _. Defined.

(** The same filters with [key] no longer among the single-valued keys. *)
Definition without_key (key : string) (f : Filters) : Filters :=
  {| SingleFilterKeys := filter (λ k, k ≠ key) (SingleFilterKeys f);
     MultiFilterKeys := MultiFilterKeys f;
     singleFilters := singleFilters f;
     multiFilters := multiFilters f |}.

(** *** Displaying logs *)

Definition displayLogHeader (title : string) : list event :=
  [PrintColorable (newline +:+ LeadingMark +:+ " " +:+ title +:+ newline)
     Stdout [Bold; FgYellow]].

Definition displayLogItem (item : option string) (title status : string) : list event :=
  match item with
  | None => []
  | Some text =>
      if decide (text = "") then []
      else [PrintColorable (LeadingMark +:+ " " +:+ title +:+ ": ") Stdout
              [JobStatusToColor status];
            Println text]
  end.

(** The names of the jobs in the response (lines 227-229). *)
Definition returnedStepNames (l : logs) : list string :=
  (λ kv, JobName kv.2) <$> map_to_list (JobLogs l).

(** The requested steps that are not among them (lines 231-235). *)
Definition missingStepNames (l : logs) (steps : list string) : list string :=
  filter (λ step, slices_Contains (returnedStepNames l) step = false) steps.

Definition msg_steps_not_found (missing : list string) : string :=
  "The logs of step(s) " +:+ Join missing "," +:+
  " were not found, check for spelling mistakes in the step names".

(** The body of the loop over [logs.JobLogs] (lines 248-277). *)
Definition displayJob (jobId : string) (jobItem : jobLogItem) : list event :=
  let jobNameOrId := if decide (JobName jobItem ≠ "") then JobName jobItem else jobId in
  [PrintColorable (LeadingMark +:+ " Step: " +:+ jobNameOrId +:+ newline) Stdout
     [Bold; JobStatusToColor (Status jobItem)]]
  ++ displayLogItem (Some (WorkflowUuid jobItem)) "Workflow ID" (Status jobItem)
  ++ displayLogItem (Some (ComputeBackend jobItem)) "Compute backend" (Status jobItem)
  ++ displayLogItem (Some (BackendJobId jobItem)) "Job ID" (Status jobItem)
  ++ displayLogItem (Some (DockerImg jobItem)) "Docker image" (Status jobItem)
  ++ displayLogItem (Some (Cmd jobItem)) "Command" (Status jobItem)
  ++ displayLogItem (Some (Status jobItem)) "Status" (Status jobItem)
  ++ displayLogItem (StartedAt jobItem) "Started" (Status jobItem)
  ++ displayLogItem (FinishedAt jobItem) "Finished" (Status jobItem)
  ++ (if decide (Logs jobItem ≠ "")
      then displayLogItem (Some (newline +:+ Logs jobItem)) "Logs" (Status jobItem)
      else [DisplayMessage ("Step " +:+ jobNameOrId +:+ " emitted no logs.")
              Info false Stdout]).

(** [displayHumanFriendlyLogs(cmd, logs, steps)]: what it writes, in order.
    The function has no result. *)
Definition displayHumanFriendlyLogs (l : logs) (steps : list string) : list event :=
  (match WorkflowLogs l with
   | Some text => if decide (text ≠ "")
                  then displayLogHeader "Workflow engine logs" ++ [Println text] else []
   | None => []
   end)
  ++ (match EngineSpecific l with
      | Some text => if decide (text ≠ "")
                     then displayLogHeader "Engine internal logs" ++ [Println text] else []
      | None => []
      end)
  ++ (if decide (0 < length steps) then
        let missing := missingStepNames l steps in
        if decide (0 < length missing)
        then [DisplayMessage (msg_steps_not_found missing) Error false Stderr]
        else []
      else [])
  ++ (if decide (0 < size (JobLogs l))
      then displayLogHeader "Job logs"
           ++ (map_to_list (JobLogs l) ≫= λ kv, displayJob kv.1 kv.2)
      else []).

(** [displayer.DisplayJsonOutput(workflowLogs, cmd.OutOrStdout())]: what it
    writes and the error it returns. The package [displayer] is outside the
    sources. *)
Variable DisplayJsonOutput : logs → list event * option error.

(** The part of [logsOptions.run] that follows the decoding of the
    response (lines 138-152): what is written and the returned error.
    [jsonOutput] is the flag [--json]. *)
Definition run_display (jsonOutput : bool) (workflowLogs : logs) (filters : Filters)
    (steps : list string) : list event * option error :=
  match filterJobLogs (JobLogs workflowLogs) filters with
  | (_, Some err) => ([], Some err)
  | (jobLogs', None) =>
      let workflowLogs' :=
        {| WorkflowLogs := WorkflowLogs workflowLogs;
           JobLogs := jobLogs';
           EngineSpecific := EngineSpecific workflowLogs |} in
      if jsonOutput then
        match DisplayJsonOutput workflowLogs' with
        | (written, Some err) => (written, Some err)
        | (written, None) => (written, None)
        end
      else (displayHumanFriendlyLogs workflowLogs' steps, None)
  end.

End Logs.

(** The messages that [displayer] marks as errors. *)
Definition is_error_message (e : event) : Prop :=
  match e with
  | DisplayMessage _ Error _ _ => True
  | _ => False
  end.

(** ** The du command *)

Record diskUsageSize : Type := {
  HumanReadable : string;
  Raw : Z
}.

Record diskUsageInfo : Type := {
  Name : string;
  Size : diskUsageSize
}.

(** The row of one payload entry (lines 136-143). *)
Definition du_row (humanReadable : bool) (info : diskUsageInfo) : list cell :=
  [if humanReadable then CStr (HumanReadable (Size info)) else CInt (Raw (Size info));
   CStr ("." +:+ Name info)].

(** The loop that builds [rows] (lines 131-144); [datautils.HasAnyPrefix]
    and [config.FilesBlacklist] are [HasAnyPrefix] and [FilesBlacklist] of
    utils.go. *)
Fixpoint du_rows (humanReadable : bool) (infos : list diskUsageInfo) : list (list cell) :=
  match infos with
  | [] => []
  | info :: rest =>
      if HasAnyPrefix (Name info) FilesBlacklist then du_rows humanReadable rest
      else du_row humanReadable info :: du_rows humanReadable rest
  end.

(** [displayDuPayload(cmd, p, humanReadable)] on [p.DiskUsageInfo]: what is
    written and the returned error. *)
Definition displayDuPayload (DiskUsageInfo : list diskUsageInfo) (humanReadable : bool)
    : list event * option error :=
  if decide (length DiskUsageInfo = 0)
  then ([], Some "no files matching filter criteria")
  else ([DisplayTable ["SIZE"; "NAME"] (du_rows humanReadable DiskUsageInfo) Stdout], None).

(** ** Instances used in examples *)

(** [strings.ToLower] on ASCII text. *)
Definition lower_byte (c : ascii) : ascii :=
  let n := nat_of_ascii c in
  if decide (65 ≤ n ∧ n ≤ 90) then ascii_of_nat (n + 32) else c.

Fixpoint ascii_ToLower (s : string) : string :=
  match s with
  | EmptyString => EmptyString
  | String c s' => String (lower_byte c) (ascii_ToLower s')
  end.

(** [json.Marshal] of a [map[string][]string] whose keys and values need no
    escaping: an object with the keys in sorted order. *)
Definition json_string (s : string) : string := dquote +:+ s +:+ dquote.
Definition json_array (vs : list string) : string :=
  "[" +:+ Join (json_string <$> vs) "," +:+ "]".
Definition json_Marshal_plain (m : gmap string (list string)) : string :=
  let entries := merge_sort (λ x y, String.leb x.1 y.1) (map_to_list m) in
  "{" +:+ Join ((λ kv, json_string kv.1 +:+ ":" +:+ json_array kv.2) <$> entries) "," +:+ "}".

(** The backend table used in examples. *)
Definition example_backends : gmap string string :=
  {[ "kubernetes" := "k8s"; "htcondor" := "htcondorcern"; "slurm" := "slurmcern" ]}.

(** A job, filters on its backend and a response, used in examples. *)
Definition example_job : jobLogItem :=
  {| WorkflowUuid := "w-1"; JobName := "fit"; ComputeBackend := "k8s";
     BackendJobId := "b-1"; DockerImg := "docker.io/library/python:3.11";
     Cmd := "python fit.py"; Status := "finished"; Logs := "done";
     StartedAt := Some "2022-07-01T10:00:00"; FinishedAt := None |}.

Definition example_filters (backend : string) : Filters :=
  {| SingleFilterKeys := ["compute_backend"; "docker_img"; "status"];
     MultiFilterKeys := ["step"];
     singleFilters := {[ "compute_backend" := backend ]};
     multiFilters := ∅ |}.

Definition example_logs : logs :=
  {| WorkflowLogs := None;
     JobLogs := {[ "job-1" := example_job ]};
     EngineSpecific := None |}.

(** A response whose only job has no name. *)
Definition example_unnamed_job : jobLogItem :=
  {| WorkflowUuid := "w-1"; JobName := ""; ComputeBackend := "k8s";
     BackendJobId := "b-1"; DockerImg := "docker.io/library/python:3.11";
     Cmd := "python fit.py"; Status := "finished"; Logs := "done";
     StartedAt := None; FinishedAt := None |}.

Definition example_unnamed_logs : logs :=
  {| WorkflowLogs := None;
     JobLogs := {[ "job-1" := example_unnamed_job ]};
     EngineSpecific := None |}.

(** The examples run the logs command without [--json]: the JSON display
    is not called there, and this stand-in writes nothing. *)
Definition no_DisplayJsonOutput (l : logs) : list event * option error := ([], None).

(** ** utils.go: format rules and workflow names *)

(** One iteration of the loop of [ParseFormatParameters]. The source
    indexes the result of [strings.SplitN]; an index out of range would
    panic. *)
Definition format_token (parsedFilters : gmap string string) (filter : string)
    : outcome (gmap string string) :=
  let filterNameAndValue := SplitN2 filter "=" in
  if decide (length filterNameAndValue < 2) then
    match filterNameAndValue !! 0 with
    | Some name => Returns (<[name := ""]> parsedFilters)
    | None => Panics
    end
  else
    match filterNameAndValue !! 0, filterNameAndValue !! 1 with
    | Some name, Some value => Returns (<[name := value]> parsedFilters)
    | _, _ => Panics
    end.

Fixpoint format_tokens (parsedFilters : gmap string string) (filters : list string)
    : outcome (gmap string string) :=
  match filters with
  | [] => Returns parsedFilters
  | filter :: rest =>
      parsedFilters' ← format_token parsedFilters filter;
      format_tokens parsedFilters' rest
  end.

(** [ParseFormatParameters(filters)]. *)
Definition ParseFormatParameters (filters : list string) : outcome (gmap string string) :=
  format_tokens ∅ filters.

(** The column name and the value that a format token stands for. *)
Definition format_name (filter : string) : string :=
  match cut filter "=" with
  | Some (name, _) => name
  | None => filter
  end.

Definition format_value (filter : string) : string :=
  match cut filter "=" with
  | Some (_, value) => value
  | None => ""
  end.

(** The value of the last token for the column [name], if there is one. *)
Definition last_format_value (name : string) (filters : list string) : option string :=
  format_value <$> last (filter (λ f, format_name f = name) filters).

(** [GetWorkflowNameAndRunNumber(workflowName)]. *)
Definition GetWorkflowNameAndRunNumber (workflowName : string) : outcome (string * string) :=
  let workflowNameAndRunNumber := SplitN2 workflowName "." in
  if decide (length workflowNameAndRunNumber < 2) then Returns (workflowName, "")
  else
    match workflowNameAndRunNumber !! 0, workflowNameAndRunNumber !! 1 with
    | Some name, Some runNumber => Returns (name, runNumber)
    | _, _ => Panics
    end.

(** [FormatSessionURI(serverURL, path, token)]. *)
Definition FormatSessionURI (serverURL path token : string) : string :=
  serverURL +:+ path +:+ "?token=" +:+ token.

(** ** list.go *)

Module list_go.

(** The fields of a workflow of the response that [displayListPayload]
    reads. The generated type is outside the sources: the fields are taken
    as strings, [Progress] and the two run times as pointers. *)
Record progress : Type := {
  RunStartedAt : option string;
  RunFinishedAt : option string
}.

Record workflow : Type := {
  Name : string;
  Created : string;
  Progress : option progress;
  Status : string
}.

Definition displayOptionalField (value : option string) : string :=
  match value with
  | None => "-"
  | Some v => v
  end.

(** The body of the loop over [p.Items]: the row of one workflow. The
    arguments of [append] are evaluated in order; each of the two indexings
    and the dereference of [Progress] can panic. *)
Definition list_row (w : workflow) : outcome (list cell) :=
  let workflowNameAndRunNumber := SplitN2 (Name w) "." in
  match workflowNameAndRunNumber !! 0, workflowNameAndRunNumber !! 1, Progress w with
  | Some name, Some runNumber, Some p =>
      Returns [CStr name; CStr runNumber; CStr (Created w);
               CStr (displayOptionalField (RunStartedAt p));
               CStr (displayOptionalField (RunFinishedAt p));
               CStr (Status w)]
  | _, _, _ => Panics
  end.

Fixpoint list_rows (items : list workflow) : outcome (list (list cell)) :=
  match items with
  | [] => Returns []
  | w :: rest =>
      row ← list_row w;
      rows ← list_rows rest;
      Returns (row :: rows)
  end.

(** [displayListPayload(p)] on [p.Items]: what it writes; [utils.DisplayTable]
    of this version writes the table to [os.Stdout]. *)
Definition displayListPayload (Items : list workflow) : outcome (list event) :=
  rows ← list_rows Items;
  Returns [DisplayTable ["NAME"; "RUN_NUMBER"; "CREATED"; "STARTED"; "ENDED"; "STATUS"]
             rows Stdout].

(** A workflow that [displayListPayload] can show: its name has a dot and
    its [Progress] is there. *)
Definition showable (w : workflow) : Prop :=
  Contains (Name w) "." = true ∧ is_Some (Progress w).

#[global] Instance showable_dec w : Decision (showable w).
Proof. unfold showable. apply _. Defined.

End list_go.

(** ** secrets_add: parseSecrets *)

Module secrets_add.

(** [operations.AddSecretsParamsBodyAnon]. *)
Record AddSecretsParamsBodyAnon : Type := {
  Name : string;
  Type_ : string;
  Value : string
}.

Section parseSecrets.
(** [datautils.SplitKeyValue]: the key and the value, or an error. *)
Variable SplitKeyValue : string → option (string * string).
(** [base64.StdEncoding.EncodeToString]. *)
Variable EncodeToString : string → string.
(** [os.ReadFile]: the contents of the file, or the message of the error. *)
Variable ReadFile : string → string + string.
(** [filepath.Base]. *)
Variable Base : string → string.

Definition msg_invalid_option (envLiteral : string) : string :=
  "Option " +:+ dquote +:+ envLiteral +:+ dquote +:+ " is invalid:" +:+ newline +:+
  "For literal strings use " +:+ dquote +:+ "SECRET_NAME=VALUE" +:+ dquote +:+ " format".

Definition msg_file_error (filePath err : string) : string :=
  "file " +:+ filePath +:+ " could not be uploaded: " +:+ err.

(** The two accumulators of [parseSecrets]. *)
Definition secrets_state : Type := gmap string AddSecretsParamsBodyAnon * list string.

(** The loop over [envSecrets]; [inl] is the returned error. *)
Fixpoint parse_env (st : secrets_state) (envSecrets : list string) : error + secrets_state :=
  match envSecrets with
  | [] => inr st
  | envLiteral :: rest =>
      match SplitKeyValue envLiteral with
      | None => inl (msg_invalid_option envLiteral)
      | Some (key, value) =>
          let encodedValue := EncodeToString value in
          parse_env (<[key := {| Name := key; Type_ := "env"; Value := encodedValue |}]> st.1,
                     st.2 ++ [key]) rest
      end
  end.

(** The loop over [fileSecrets]. *)
Fixpoint parse_files (st : secrets_state) (fileSecrets : list string) : error + secrets_state :=
  match fileSecrets with
  | [] => inr st
  | filePath :: rest =>
      match ReadFile filePath with
      | inr err => inl (msg_file_error filePath err)
      | inl data =>
          let encodedData := EncodeToString data in
          let fileName := Base filePath in
          parse_files (<[fileName := {| Name := fileName; Type_ := "file";
                                          Value := encodedData |}]> st.1,
                       st.2 ++ [fileName]) rest
      end
  end.

(** [parseSecrets(envSecrets, fileSecrets)]: the error, or the secrets and
    their names. *)
Definition parseSecrets (envSecrets fileSecrets : list string) : error + secrets_state :=
  match parse_env (∅, []) envSecrets with
  | inl err => inl err
  | inr st => parse_files st fileSecrets
  end.

End parseSecrets.

(** The secrets map is keyed by the names of its secrets, which are of
    type [env] or [file]; every key is among the names, and every name has
    a secret. *)
Definition secrets_ok (st : secrets_state) : Prop :=
  (∀ key secret, st.1 !! key = Some secret →
     Name secret = key ∧ (Type_ secret = "env" ∨ Type_ secret = "file")) ∧
  (∀ key, is_Some (st.1 !! key) ↔ key ∈ st.2).

End secrets_add.

(** ** The ping command *)

(** The fields of the payload of [GetYou] that [run] reads. *)
Record pingPayload : Type := {
  ReanaServerVersion : string;
  Email : string
}.

Definition ping_response (serverURL version : string) (p : pingPayload) : string :=
  ("REANA server: " +:+ serverURL +:+ " " +:+ newline) +:+
  ("REANA server version: " +:+ ReanaServerVersion p +:+ " " +:+ newline) +:+
  ("REANA client version: " +:+ version +:+ " " +:+ newline) +:+
  ("Authenticated as: <" +:+ Email p +:+ "> " +:+ newline) +:+
  ("Status: " +:+ "Connected" +:+ " ").

(** [pingOptions.run] after the call of [GetYou], whose result is
    [pingResp]: what is written and the returned error. [version] is a
    constant of the package. *)
Definition ping_run (serverURL version : string) (pingResp : error + pingPayload)
    : list event * option error :=
  match pingResp with
  | inl err => ([], Some err)
  | inr p => ([Println (ping_response serverURL version p)], None)
  end.

(** ** Definitions used to state further properties *)

(** The ways in which [ParseFilterParameters] ends. *)
Inductive parse_end {A : Type} : outcome A → Prop :=
| parse_returns r : parse_end (Returns r)
| parse_wrong_format : parse_end (Exits 1 msg_wrong_format)
| parse_invalid_filter key : parse_end (Exits 1 (msg_invalid_filter key))
| parse_invalid_status v : parse_end (Exits 1 (msg_invalid_status v)).

(** The JSON properties of a [jobLogItem], as its struct tags name them. *)
Definition jobLogItem_properties : list string :=
  ["workflow_uuid"; "job_name"; "compute_backend"; "backend_job_id"; "docker_img";
   "cmd"; "status"; "logs"; "started_at"; "finished_at"].

(** The name under which a job is displayed (line 249-252 of logs.go). *)
Definition jobNameOrId (jobId : string) (jobItem : jobLogItem) : string :=
  if decide (JobName jobItem ≠ "") then JobName jobItem else jobId.

(** ** Instances used in the examples of the secrets parser *)

(** [datautils.SplitKeyValue] as the cut at the first [=]. *)
Definition example_SplitKeyValue (s : string) : option (string * string) := cut s "=".

(** A stand-in for [base64.StdEncoding.EncodeToString] that marks its
    argument. *)
Definition example_EncodeToString (s : string) : string := "b64:" +:+ s.

(** A file system with one readable file. *)
Definition example_ReadFile (path : string) : string + string :=
  if decide (path = "/home/user/cert.pem") then inl "PEM"
  else inr ("open " +:+ path +:+ ": no such file or directory").

(** [filepath.Base] on a path that does not end in a slash. *)
Fixpoint example_Base (path : string) : string :=
  match path with
  | EmptyString => EmptyString
  | String c rest =>
      if Contains rest "/" then example_Base rest
      else if decide (c = "/"%char) then rest else path
  end.

(** Filters of the logs command whose single-valued keys are listed in
    another order, and filters with a key that is no property of a job. *)
Definition example_filters_reordered (backend : string) : Filters :=
  {| SingleFilterKeys := ["status"; "compute_backend"; "docker_img"];
     MultiFilterKeys := ["step"];
     singleFilters := {[ "compute_backend" := backend ]};
     multiFilters := ∅ |}.

Definition example_filters_unknown : Filters :=
  {| SingleFilterKeys := ["compute_backend"; "docker_img"; "status"; "owner"];
     MultiFilterKeys := ["step"];
     singleFilters := {[ "owner" := "john" ]};
     multiFilters := ∅ |}.

(** * Properties *)

(** ** Lists: filtering and mapping *)

Lemma fmap_filter_compose {A B C : Type} (P Q : A → Prop) (P' : B → Prop)
    `{!∀ x, Decision (P x)} `{!∀ x, Decision (Q x)} `{!∀ x, Decision (P' x)}
    (g : A → B) (f : A → C) (f' : B → C) (l : list A) :
  Forall (λ r, P r ↔ Q r ∧ P' (g r)) l →
  Forall (λ r, P r → f' (g r) = f r) l →
  f' <$> filter P' (g <$> filter Q l) = f <$> filter P l.
Proof.
  induction 1 as [|r l Hr _ IH]; intros Hf; [done|].
  apply Forall_cons in Hf as [Hfr Hf]. specialize (IH Hf).
  rewrite !(filter_cons _ r).
  destruct (decide (Q r)) as [HQ|HQ]; destruct (decide (P r)) as [HP|HP];
    rewrite ?fmap_cons, ?filter_cons.
  - destruct (decide (P' (g r))) as [HP'|HP']; [|tauto].
    by rewrite fmap_cons, IH, Hfr.
  - destruct (decide (P' (g r))) as [HP'|HP']; [tauto|done].
  - tauto.
  - done.
Qed.

Lemma filter_all {A : Type} (P : A → Prop) `{!∀ x, Decision (P x)} (l : list A) :
  Forall P l → filter P l = l.
Proof.
  induction 1 as [|x l Hx _ IH]; [done|]. by rewrite filter_cons_True, IH.
Qed.

Lemma fmap_filter_ext {A C : Type} (P P' : A → Prop)
    `{!∀ x, Decision (P x)} `{!∀ x, Decision (P' x)} (f f' : A → C) (l : list A) :
  Forall (λ r, P r ↔ P' r) l →
  Forall (λ r, P r → f' r = f r) l →
  f' <$> filter P' l = f <$> filter P l.
Proof.
  intros HP Hf.
  rewrite <-(fmap_filter_compose P (λ _, True) P' id f f' l); [| |done].
  - by rewrite list_fmap_id, (filter_all (λ _, True)) by by apply Forall_true.
  - eapply Forall_impl; [exact HP|]. simpl. tauto.
Qed.

Lemma fmap_filter_filter {A C : Type} (P Q P' : A → Prop)
    `{!∀ x, Decision (P x)} `{!∀ x, Decision (Q x)} `{!∀ x, Decision (P' x)}
    (f f' : A → C) (l : list A) :
  Forall (λ r, P r ↔ Q r ∧ P' r) l →
  Forall (λ r, P r → f' r = f r) l →
  f' <$> filter P' (filter Q l) = f <$> filter P l.
Proof.
  intros HP Hf.
  rewrite <-(fmap_filter_compose P Q P' id f f' l) by done.
  by rewrite list_fmap_id.
Qed.

Lemma fmap_filter_fmap {A B C : Type} (P : A → Prop) (P' : B → Prop)
    `{!∀ x, Decision (P x)} `{!∀ x, Decision (P' x)}
    (g : A → B) (f : A → C) (f' : B → C) (l : list A) :
  Forall (λ r, P r ↔ P' (g r)) l →
  Forall (λ r, P r → f' (g r) = f r) l →
  f' <$> filter P' (g <$> l) = f <$> filter P l.
Proof.
  intros HP Hf.
  rewrite <-(fmap_filter_compose P (λ _, True) P' g f f' l); [| |done].
  - by rewrite (filter_all (λ _, True)) by by apply Forall_true.
  - eapply Forall_impl; [exact HP|]. simpl. tauto.
Qed.

Lemma fmap_filter_id {A : Type} (P : A → Prop) `{!∀ x, Decision (P x)}
    (f : A → A) (l : list A) :
  Forall (λ r, P r ∧ f r = r) l → f <$> filter P l = l.
Proof.
  intros Hl. rewrite (fmap_filter_ext (λ _, True) P id f).
  - by rewrite list_fmap_id, filter_all by by apply Forall_true.
  - eapply Forall_impl; [exact Hl|]. simpl. tauto.
  - eapply Forall_impl; [exact Hl|]. simpl. tauto.
Qed.

Lemma remove_middle {A : Type} (l1 : list A) (x : A) (l2 : list A) :
  take (length l1) (l1 ++ x :: l2) ++ drop (S (length l1)) (l1 ++ x :: l2) = l1 ++ l2.
Proof.
  rewrite take_app_length, drop_app_ge by lia.
  by replace (S (length l1) - length l1) with 1 by lia.
Qed.

Lemma Forall_filter_keep {A : Type} (P Q : A → Prop) `{!∀ x, Decision (Q x)} (l : list A) :
  Forall P l → Forall P (filter Q l).
Proof.
  rewrite !Forall_forall. intros HP x Hx. apply list_elem_of_filter in Hx as [_ Hx]. auto.
Qed.

Lemma Forall_filter_self {A : Type} (Q : A → Prop) `{!∀ x, Decision (Q x)} (l : list A) :
  Forall Q (filter Q l).
Proof.
  rewrite Forall_forall. intros x Hx. by apply list_elem_of_filter in Hx as [? _].
Qed.

(** ** The column projector *)

Section FormatData_facts.
Context {any : Type} (Sprint : any → string) (formatFilters : gmap string string).

Lemma projected_cons name header (x : any) (row : list any) :
  projected formatFilters (name :: header) (x :: row) =
  if decide (wanted formatFilters name) then x :: projected formatFilters header row
  else projected formatFilters header row.
Proof.
  unfold projected. simpl. rewrite filter_cons. simpl. by destruct (decide _).
Qed.

Lemma row_ok_cons name header (x : any) (row : list any) :
  row_ok Sprint formatFilters (name :: header) (x :: row) ↔
  cell_ok Sprint formatFilters name x ∧ row_ok Sprint formatFilters header row.
Proof. unfold row_ok. simpl. by rewrite Forall_cons. Qed.

Lemma projected_nil_l (row : list any) : projected formatFilters [] row = [].
Proof. done. Qed.

Lemma row_ok_nil_l (row : list any) : row_ok Sprint formatFilters [] row.
Proof. unfold row_ok. simpl. constructor. Qed.

Lemma remove_column_returns col (data : list (list any)) :
  Forall (λ r, col < length r) data →
  remove_column col data = Returns ((λ r, take col r ++ drop (S col) r) <$> data).
Proof.
  induction 1 as [|r data Hr _ IH]; [done|].
  simpl. unfold remove_at. rewrite decide_True by done. simpl. by rewrite IH.
Qed.

Lemma remove_column_inv col (data data' : list (list any)) :
  remove_column col data = Returns data' →
  Forall (λ r, col < length r) data ∧
  data' = (λ r, take col r ++ drop (S col) r) <$> data.
Proof.
  revert data'. induction data as [|r data IH]; intros data'; simpl.
  - intros [= <-]. by split.
  - unfold remove_at. destruct (decide (col < length r)) as [Hr|]; [|done]. simpl.
    destruct (remove_column col data) as [rest'| | |] eqn:E; simpl; try done.
    intros [= <-]. destruct (IH _ eq_refl) as [? ->]. split; [by constructor|done].
Qed.

Lemma filter_rows_returns col v (todo : list (list any)) : ∀ fuel done,
  length todo ≤ fuel →
  Forall (λ r, col < length r) todo →
  filter_rows Sprint fuel col v (length done) (done ++ todo) =
  Returns (done ++ filter (prints_as Sprint col v) todo).
Proof.
  induction todo as [|r todo IH]; intros fuel done Hfuel Hcol.
  - rewrite filter_nil, app_nil_r. destruct fuel; simpl; rewrite decide_False by lia; done.
  - apply Forall_cons in Hcol as [Hr Hcol]. destruct fuel as [|fuel]; simpl in Hfuel; [lia|].
    simpl. rewrite decide_True by (rewrite length_app; simpl; lia).
    rewrite list_lookup_middle by done. simpl.
    destruct (lookup_lt_is_Some_2 r col Hr) as [x Hx]. rewrite Hx.
    assert (prints_as Sprint col v r ↔ Sprint x = v) as Hp.
    { unfold prints_as. rewrite Hx. simpl. split; congruence. }
    rewrite filter_cons.
    destruct (decide (Sprint x ≠ v)) as [Hne|Heq].
    + rewrite decide_False by tauto.
      rewrite remove_middle. apply IH; [lia|done].
    + rewrite decide_True by (apply Hp; by destruct (decide (Sprint x = v))).
      replace (done ++ r :: todo) with ((done ++ [r]) ++ todo) by (by rewrite <-app_assoc).
      replace (S (length done)) with (length (done ++ [r])) by (rewrite length_app; simpl; lia).
      rewrite IH by (done || lia). by rewrite <-app_assoc.
Qed.

Lemma filter_rows_inv col v fuel : ∀ (todo done data' : list (list any)),
  filter_rows Sprint fuel col v (length done) (done ++ todo) = Returns data' →
  Forall (λ r, col < length r) todo ∧ data' = done ++ filter (prints_as Sprint col v) todo.
Proof.
  induction fuel as [|fuel IH]; intros todo done data'; simpl.
  - destruct todo as [|r todo].
    + rewrite decide_False by (rewrite app_nil_r; lia). rewrite app_nil_r.
      intros [= <-]. by rewrite filter_nil, app_nil_r.
    + by rewrite decide_True by (rewrite length_app; simpl; lia).
  - destruct todo as [|r todo].
    + rewrite decide_False by (rewrite app_nil_r; lia). rewrite app_nil_r.
      intros [= <-]. by rewrite filter_nil, app_nil_r.
    + rewrite decide_True by (rewrite length_app; simpl; lia).
      rewrite list_lookup_middle by done. simpl.
      destruct (r !! col) as [x|] eqn:Hx; [|done].
      assert (prints_as Sprint col v r ↔ Sprint x = v) as Hp.
      { unfold prints_as. rewrite Hx. simpl. split; congruence. }
      apply lookup_lt_Some in Hx as Hr.
      rewrite filter_cons.
      destruct (decide (Sprint x ≠ v)) as [Hne|Heq].
      * rewrite decide_False by tauto.
        rewrite remove_middle. intros H. apply IH in H as [? ->]. by split; [constructor|].
      * rewrite decide_True by (apply Hp; by destruct (decide (Sprint x = v))).
        replace (done ++ r :: todo) with ((done ++ [r]) ++ todo) by (by rewrite <-app_assoc).
        replace (S (length done)) with (length (done ++ [r])) by (rewrite length_app; simpl; lia).
        intros H. apply IH in H as [? ->]. rewrite <-app_assoc. by split; [constructor|].
Qed.

Lemma format_columns_aligned (todo : list string) :
  ∀ (hd : list string) (data : list (list any)) (fuel : nat),
  length todo ≤ fuel →
  Forall (λ r, length r = length hd + length todo) data →
  format_columns Sprint formatFilters fuel (length hd) (hd ++ todo) data =
  Returns (hd ++ filter (wanted formatFilters) todo,
           (λ r, take (length hd) r ++ projected formatFilters todo (drop (length hd) r))
             <$> filter (λ r, row_ok Sprint formatFilters todo (drop (length hd) r)) data).
Proof.
  induction todo as [|name todo IH]; intros hd data fuel Hfuel Hlen.
  - rewrite filter_nil, !app_nil_r.
    destruct fuel; simpl; rewrite decide_False by lia; f_equal; f_equal.
    all: symmetry; apply fmap_filter_id.
    all: eapply Forall_impl; [exact Hlen|]; simpl; intros r Hr.
    all: split; [apply row_ok_nil_l|].
    all: by rewrite projected_nil_l, app_nil_r, take_ge by lia.
  - destruct fuel as [|fuel]; simpl in Hfuel; [lia|].
    assert (Forall (λ r : list any, ∃ x, r !! length hd = Some x ∧
              drop (length hd) r = x :: drop (S (length hd)) r) data) as Hcell.
    { eapply Forall_impl; [exact Hlen|]. simpl. intros r Hr.
      destruct (lookup_lt_is_Some_2 r (length hd)) as [x Hx]; [lia|].
      exists x. split; [done|]. by apply drop_S. }
    assert (Forall (λ r : list any, length hd ≤ length r) data) as Hge.
    { eapply Forall_impl; [exact Hlen|]. simpl. lia. }
    simpl. rewrite decide_True by (rewrite length_app; simpl; lia).
    rewrite list_lookup_middle by done.
    destruct (formatFilters !! name) as [v|] eqn:Hname.
    + assert (wanted formatFilters name) as Hw by (by eexists).
      assert (hd ++ name :: todo = (hd ++ [name]) ++ todo) as Ehd
        by (by rewrite <-app_assoc).
      assert (S (length hd) = length (hd ++ [name])) as En
        by (rewrite length_app; simpl; lia).
      assert (∀ data', Forall (λ r : list any, length r = length hd + S (length todo)) data' →
                Forall (λ r : list any, length r = length (hd ++ [name]) + length todo) data')
        as Hlen'.
      { intros data' Hd. eapply Forall_impl; [exact Hd|]. simpl. intros r. rewrite <-En. lia. }
      rewrite (filter_cons_True _ name) by done.
      destruct (decide (v ≠ "")) as [Hv|Hv].
      * pose proof (filter_rows_returns (length hd) v data (length data) []) as E.
        simpl in E. rewrite E; clear E; [|done|].
        2:{ eapply Forall_impl; [exact Hlen|]. simpl. lia. }
        simpl. rewrite Ehd, En, IH; [|lia|].
        2:{ apply Hlen'. clear -Hlen. induction Hlen; [done|].
            rewrite filter_cons. destruct (decide _); [by constructor|done]. }
        rewrite <-app_assoc. simpl. f_equal. f_equal. rewrite <-En.
        apply fmap_filter_filter.
        -- eapply Forall_impl; [exact Hcell|]. simpl. intros r (x & Hx & ->).
           rewrite row_ok_cons. unfold prints_as, cell_ok. rewrite Hx, Hname. simpl.
           split; [intros [[?|?] ?]|intros [[= ?] ?]]; [done|split; [congruence|done]|auto].
        -- eapply Forall_impl; [exact Hcell|]. simpl. intros r (x & Hx & ->) _.
           rewrite projected_cons, decide_True by done.
           rewrite (take_S_r _ _ x), <-app_assoc by done. done.
      * rewrite Ehd, En, IH; [|lia|by apply Hlen'].
        rewrite <-app_assoc. simpl. f_equal. f_equal. rewrite <-En.
        apply fmap_filter_ext.
        -- eapply Forall_impl; [exact Hcell|]. simpl. intros r (x & Hx & ->).
           rewrite row_ok_cons. unfold cell_ok. rewrite Hname.
           destruct (decide (v = "")); [|done]. tauto.
        -- eapply Forall_impl; [exact Hcell|]. simpl. intros r (x & Hx & ->) _.
           rewrite projected_cons, decide_True by done.
           rewrite (take_S_r _ _ x), <-app_assoc by done. done.
    + assert (¬ wanted formatFilters name) as Hw by (intros [? ?]; congruence).
      rewrite (filter_cons_False _ name) by done.
      rewrite remove_column_returns.
      2:{ eapply Forall_impl; [exact Hlen|]. simpl. lia. }
      simpl. rewrite remove_middle, IH; [|lia|].
      2:{ rewrite Forall_fmap. eapply Forall_impl; [exact Hlen|]. simpl. intros r Hr.
          rewrite length_app, length_take, length_drop. lia. }
      f_equal. f_equal.
      apply fmap_filter_fmap.
      * eapply Forall_impl; [exact (proj2 (Forall_and _ _) (conj Hge Hcell))|].
        simpl. intros r (Hr & x & Hx & ->).
        rewrite drop_app_length' by (rewrite length_take; lia).
        rewrite row_ok_cons. unfold cell_ok. rewrite Hname. tauto.
      * eapply Forall_impl; [exact (proj2 (Forall_and _ _) (conj Hge Hcell))|].
        simpl. intros r (Hr & x & Hx & ->) _.
        rewrite drop_app_length', take_app_length' by (rewrite length_take; lia).
        by rewrite projected_cons, decide_False by done.
Qed.

Lemma format_columns_settles fuel :
  ∀ col (header : list string) (data : list (list any)) header' data',
  format_columns Sprint formatFilters fuel col header data = Returns (header', data') →
  col ≤ length header →
  settled Sprint formatFilters col header data →
  settled Sprint formatFilters (length header') header' data'.
Proof.
  induction fuel as [|fuel IH]; intros col header data header' data'; simpl.
  - destruct (decide (col < length header)); [done|].
    intros [= <- <-] Hcol Hs. by replace (length header) with col by lia.
  - destruct (decide (col < length header)) as [Hlt|].
    2:{ intros [= <- <-] Hcol Hs. by replace (length header) with col by lia. }
    destruct (header !! col) as [name|] eqn:Hname; [|done].
    destruct (formatFilters !! name) as [v|] eqn:Hv.
    + destruct (decide (v ≠ "")) as [Hne|He].
      * destruct (filter_rows _ _ _ _ _ _) as [data1| | |] eqn:Erows; try done. simpl.
        intros Hrun _ Hs. apply (filter_rows_inv col v (length data) data []) in Erows as [_ ->].
        simpl in Hrun. apply IH in Hrun; [done|lia|].
        intros i name' Hi Hname'. destruct (decide (i = col)) as [->|].
        -- replace name' with name by congruence. exists v. split; [done|right].
           apply Forall_filter_self.
        -- destruct (Hs i name') as (v' & ? & Hv'); [lia|done|].
           exists v'. split; [done|]. destruct Hv'; [by left|right].
           by apply Forall_filter_keep.
      * intros Hrun _ Hs. apply IH in Hrun; [done|lia|].
        intros i name' Hi Hname'. destruct (decide (i = col)) as [->|].
        -- replace name' with name by congruence. exists v. split; [done|left].
           by destruct (decide (v = "")).
        -- apply Hs; [lia|done].
    + destruct (remove_column col data) as [data1| | |] eqn:Ecol; try done. simpl.
      intros Hrun _ Hs. apply remove_column_inv in Ecol as [Hlen ->].
      apply IH in Hrun; [done|rewrite length_app, length_take, length_drop; lia|].
      intros i name' Hi Hname'.
      rewrite lookup_app_l, lookup_take_lt in Hname' by (rewrite ?length_take; lia).
      destruct (Hs i name') as (v' & ? & Hv'); [lia|done|].
      exists v'. split; [done|]. destruct Hv' as [|Hv']; [by left|right].
      rewrite Forall_fmap.
      eapply Forall_impl; [exact (proj2 (Forall_and _ _) (conj Hlen Hv'))|].
      simpl. intros r [Hr Hp]. unfold prints_as in *.
      by rewrite lookup_app_l, lookup_take_lt by (rewrite ?length_take; lia).
Qed.

Lemma format_columns_settled fuel :
  ∀ col (header : list string) (data : list (list any)),
  settled Sprint formatFilters (length header) header data →
  length header - col ≤ fuel →
  format_columns Sprint formatFilters fuel col header data = Returns (header, data).
Proof.
  induction fuel as [|fuel IH]; intros col header data Hs Hfuel; simpl.
  - by rewrite decide_False by lia.
  - destruct (decide (col < length header)) as [Hlt|]; [|done].
    destruct (lookup_lt_is_Some_2 header col Hlt) as [name Hname]. rewrite Hname.
    destruct (Hs col name Hlt Hname) as (v & -> & Hv).
    destruct (decide (v ≠ "")) as [Hne|He]; [|apply IH; [done|lia]].
    destruct Hv as [|Hv]; [done|].
    pose proof (filter_rows_returns col v data (length data) []) as E.
    simpl in E. rewrite E, filter_all; [|done|done|].
    + simpl. apply IH; [done|lia].
    + eapply Forall_impl; [exact Hv|]. simpl. intros r Hr. unfold prints_as in Hr.
      destruct (r !! col) eqn:Hx; [|done]. by apply lookup_lt_Some in Hx.
Qed.

Lemma remove_column_fuel col (data : list (list any)) :
  remove_column col data ≠ OutOfFuel.
Proof.
  induction data as [|r data IH]; simpl; [done|].
  unfold remove_at. destruct (decide (col < length r)); simpl; [|done].
  by destruct (remove_column col data).
Qed.

Lemma filter_rows_fuel col v fuel : ∀ row (data : list (list any)),
  length data - row ≤ fuel →
  filter_rows Sprint fuel col v row data ≠ OutOfFuel.
Proof.
  induction fuel as [|fuel IH]; intros row data Hfuel; simpl.
  - by rewrite decide_False by lia.
  - destruct (decide (row < length data)) as [Hrow|]; [|done].
    destruct (data !! row ≫= lookup col) as [x|]; [|done].
    destruct (decide (Sprint x ≠ v)); apply IH; [|lia].
    rewrite length_app, length_take, length_drop. lia.
Qed.

Lemma format_columns_fuel fuel : ∀ col (header : list string) (data : list (list any)),
  length header - col ≤ fuel →
  format_columns Sprint formatFilters fuel col header data ≠ OutOfFuel.
Proof.
  induction fuel as [|fuel IH]; intros col header data Hfuel; simpl.
  - by rewrite decide_False by lia.
  - destruct (decide (col < length header)) as [Hcol|]; [|done].
    destruct (header !! col) as [name|]; [|done].
    destruct (formatFilters !! name) as [v|].
    + destruct (decide (v ≠ "")); [|apply IH; lia].
      pose proof (filter_rows_fuel col v (length data) 0 data) as Hrows.
      destruct (filter_rows _ _ _ _ _ _) as [data'| | |]; simpl; try done.
      * apply IH. lia.
      * destruct Hrows; [lia|done].
    + pose proof (remove_column_fuel col data) as Hrem.
      destruct (remove_column col data) as [data'| | |]; simpl; try done.
      apply IH. rewrite length_app, length_take, length_drop. lia.
Qed.

(** The loop bounds of the model are never reached: [FormatData] returns
    or panics. *)
Lemma FormatData_fuel (header : list string) (data : list (list any)) :
  FormatData Sprint formatFilters data header ≠ OutOfFuel.
Proof.
  unfold FormatData. destruct (decide _); [done|]. apply format_columns_fuel. lia.
Qed.

(** Without rules the table is left as it is. *)
Lemma FormatData_no_rules (header : list string) (data : list (list any)) :
  formatFilters = ∅ →
  FormatData Sprint formatFilters data header = Returns (header, data).
Proof. intros ->. done. Qed.

(** [row_ok], position by position. *)
Lemma row_ok_lookup (header : list string) (row : list any) :
  row_ok Sprint formatFilters header row ↔
  ∀ i name x v, header !! i = Some name → row !! i = Some x →
    formatFilters !! name = Some v → v ≠ "" → Sprint x = v.
Proof.
  unfold row_ok. rewrite Forall_lookup. split.
  - intros Hall i name x v Hname Hx Hv Hne.
    specialize (Hall i (name, x)). unfold cell_ok in Hall. simpl in Hall.
    rewrite Hv in Hall. destruct Hall as [|]; [|done|done].
    apply lookup_zip_with_Some. by exists name, x.
  - intros Hall i [name x] Hi. apply lookup_zip_with_Some in Hi as (? & ? & [= <- <-] & ? & ?).
    unfold cell_ok. simpl. destruct (formatFilters !! name) as [v|] eqn:Hv; [|done].
    destruct (decide (v = "")); [by left|right]. eauto.
Qed.

(** A projected row has one cell per wanted column. *)
Lemma projected_length (header : list string) : ∀ row : list any,
  length row = length header →
  length (projected formatFilters header row) = length (filter (wanted formatFilters) header).
Proof.
  induction header as [|name header IH]; intros [|x row] Hlen; simpl in Hlen; try done.
  rewrite projected_cons, filter_cons.
  destruct (decide (wanted formatFilters name)); simpl; rewrite IH by lia; done.
Qed.

(** C1. With a non-empty rule set and rows aligned with the header,
    [FormatData] returns, and leaves exactly: the header restricted, in its
    order, to the columns that the rule set names, and the rows that print
    as the rule value in every column whose rule has one, each cut down to
    the cells at the positions of the kept columns. No column and no row is
    skipped after a removal. *)
Theorem FormatData_projects (header : list string) (data : list (list any)) :
  formatFilters ≠ ∅ →
  aligned header data →
  FormatData Sprint formatFilters data header =
  Returns (filter (wanted formatFilters) header,
           projected formatFilters header
             <$> filter (row_ok Sprint formatFilters header) data).
Proof.
  intros Hne Hal. unfold FormatData.
  rewrite decide_False by (by rewrite map_size_empty_iff).
  exact (format_columns_aligned header [] data (length header) (le_n _) Hal).
Qed.

(** C6. The projector is idempotent: when [FormatData] returns a header
    and rows, running it again on them with the same rule set returns them
    unchanged. *)
Theorem FormatData_idempotent (header : list string) (data : list (list any))
    (header' : list string) (data' : list (list any)) :
  FormatData Sprint formatFilters data header = Returns (header', data') →
  FormatData Sprint formatFilters data' header' = Returns (header', data').
Proof.
  unfold FormatData. destruct (decide (size formatFilters = 0)); [by intros [= <- <-]|].
  intros Hrun. apply format_columns_settles in Hrun; [|lia|intros i name Hi; lia].
  apply format_columns_settled; [done|lia].
Qed.

End FormatData_facts.

(** The two tables of the specification. *)
Example FormatData_keep_B :
  FormatData Sprint_cell {[ "B" := "" ]}
    [[CInt 1; CInt 2; CInt 3]; [CInt 4; CInt 5; CInt 6]] ["A"; "B"; "C"] =
  Returns (["B"], [[CInt 2]; [CInt 5]]).
Proof. vm_compute. reflexivity. Qed.

Example FormatData_status_failed :
  FormatData Sprint_cell {[ "NAME" := ""; "STATUS" := "failed" ]}
    [[CStr "x"; CStr "failed"]; [CStr "y"; CStr "finished"]] ["NAME"; "STATUS"] =
  Returns (["NAME"; "STATUS"], [[CStr "x"; CStr "failed"]]).
Proof. vm_compute. reflexivity. Qed.

(** Without the cursor correction two adjacent unwanted columns would
    leave the second one in place; here both go. *)
Example FormatData_adjacent_removals :
  FormatData Sprint_cell {[ "C" := "6" ]}
    [[CInt 1; CInt 2; CInt 3]; [CInt 4; CInt 5; CInt 6]; [CInt 7; CInt 8; CInt 6]]
    ["A"; "B"; "C"] =
  Returns (["C"], [[CInt 6]; [CInt 6]]).
Proof. vm_compute. reflexivity. Qed.

Lemma FormatData_projects_witness :
  let rules : gmap string string := {[ "B" := "" ]} in
  let header := ["A"; "B"; "C"] in
  let data := [[CInt 1; CInt 2; CInt 3]; [CInt 4; CInt 5; CInt 6]] in
  rules ≠ ∅ ∧ aligned header data ∧
  FormatData Sprint_cell rules data header = Returns (["B"], [[CInt 2]; [CInt 5]]).
Proof.
  intros rules header data.
  assert (rules ≠ ∅) as Hne by (apply insert_non_empty).
  assert (aligned header data) as Hal by (repeat constructor).
  split; [exact Hne|]. split; [exact Hal|].
  exact (eq_trans (FormatData_projects Sprint_cell rules header data Hne Hal) eq_refl).
Defined.

Lemma FormatData_idempotent_witness :
  let rules : gmap string string := {[ "NAME" := ""; "STATUS" := "failed" ]} in
  let header := ["ID"; "NAME"; "STATUS"] in
  let data := [[CInt 1; CStr "x"; CStr "failed"]; [CInt 2; CStr "y"; CStr "finished"]] in
  let header' := ["NAME"; "STATUS"] in
  let data' := [[CStr "x"; CStr "failed"]] in
  FormatData Sprint_cell rules data header = Returns (header', data') ∧
  FormatData Sprint_cell rules data' header' = Returns (header', data').
Proof.
  intros rules header data header' data'.
  assert (FormatData Sprint_cell rules data header = Returns (header', data')) as Hrun
    by (vm_compute; reflexivity).
  split; [exact Hrun|].
  exact (FormatData_idempotent Sprint_cell rules header data header' data' Hrun).
Defined.

(** ** The filter parser *)

Lemma Contains_cut (s : string) (sep : ascii) :
  Contains s sep = true ↔ is_Some (cut s sep).
Proof.
  induction s as [|c s IH]; simpl.
  - split; [done|]. by intros [? ?].
  - destruct (decide (c = sep)); [by split; eauto|].
    rewrite IH. destruct (cut s sep) as [[a b]|]; split; intros [? ?]; by eauto.
Qed.

Lemma Contains_false_cut (s : string) (sep : ascii) :
  Contains s sep = false ↔ cut s sep = None.
Proof.
  rewrite <-not_true_iff_false, Contains_cut, eq_None_not_Some. done.
Qed.

(** A key without the separator, the separator and a value are cut back
    into the key and the value. *)
Lemma cut_append (name v : string) (sep : ascii) :
  Contains name sep = false →
  cut (name +:+ String sep v) sep = Some (name, v).
Proof.
  induction name as [|c name IH]; simpl.
  - by rewrite decide_True.
  - destruct (decide (c = sep)); [done|]. intros H. by rewrite IH.
Qed.

Section ParseFilterParameters_facts.
Context (ToLower : string → string) (json_Marshal : gmap string (list string) → string).

(** The loop body, by the shape of the token. *)
Lemma parse_token_eq (filterNames : list string) (st : parse_state) (value : string) :
  parse_token ToLower filterNames st value =
  match cut value "=" with
  | None => Exits 1 msg_wrong_format
  | Some (name, filterValue) =>
      let filterName := ToLower name in
      if decide (filterName ∉ filterNames) then Exits 1 (msg_invalid_filter filterName)
      else if decide (filterName = "status") then
        if decide (filterValue ∉ GetRunStatuses true)
        then Exits 1 (msg_invalid_status filterValue)
        else Returns {| searchFilters := searchFilters st;
                        statusFilters := statusFilters st ++ [filterValue] |}
      else Returns {| searchFilters :=
                        <[filterName :=
                            default [] (searchFilters st !! filterName) ++ [filterValue]]>
                          (searchFilters st);
                      statusFilters := statusFilters st |}
  end.
Proof.
  unfold parse_token, SplitN2, slices_Contains.
  destruct (cut value "=") as [[name filterValue]|] eqn:Hcut.
  - assert (Contains value "=" = true) as -> by (apply Contains_cut; eauto).
    cbn [lookup list_lookup negb].
    destruct (decide (ToLower name ∉ filterNames)) as [Hn|Hn].
    + by rewrite bool_decide_eq_false_2.
    + rewrite bool_decide_eq_true_2 by (by apply dec_stable). cbn [negb].
      destruct (decide (ToLower name = "status")) as [Hs|Hs].
      * rewrite (bool_decide_eq_true_2 _ Hs). cbn [andb].
        destruct (decide (filterValue ∉ GetRunStatuses true)) as [Hv|Hv].
        -- by rewrite bool_decide_eq_false_2.
        -- by rewrite bool_decide_eq_true_2 by (by apply dec_stable).
      * by rewrite (bool_decide_eq_false_2 _ Hs).
  - by assert (Contains value "=" = false) as -> by (by apply Contains_false_cut).
Qed.

Lemma parse_tokens_app (filterNames : list string) (pre post : list string) : ∀ st,
  parse_tokens ToLower filterNames st (pre ++ post) =
  parse_tokens ToLower filterNames st pre ≫= λ st', parse_tokens ToLower filterNames st' post.
Proof.
  induction pre as [|value pre IH]; intros st; simpl; [done|].
  destruct (parse_token _ _ _ _); simpl; [apply IH|done..].
Qed.

Lemma parse_token_valid (filterNames : list string) (st : parse_state) (value : string) :
  (∃ st', parse_token ToLower filterNames st value = Returns st') ↔
  token_valid ToLower filterNames value.
Proof.
  rewrite parse_token_eq. unfold token_valid, token_key, token_value.
  destruct (cut value "=") as [[name v]|].
  - simpl. split.
    + intros [st' H]. exists (ToLower name), v.
      destruct (decide (ToLower name ∉ filterNames)) as [|Hn]; [done|].
      apply dec_stable in Hn. split_and!; [done..|]. intros Hs.
      rewrite decide_True in H by done.
      destruct (decide (v ∉ GetRunStatuses true)) as [|Hv]; [done|]. by apply dec_stable.
    + intros (key & v' & [= <-] & [= <-] & Hn & Hs).
      rewrite decide_False by auto.
      destruct (decide (ToLower name = "status")); [|by eauto].
      rewrite decide_False by auto. by eauto.
  - split; [by intros [? ?]|]. by intros (? & ? & ? & _).
Qed.

Lemma parse_tokens_valid (filterNames filter : list string) : ∀ st,
  (∃ st', parse_tokens ToLower filterNames st filter = Returns st') ↔
  Forall (token_valid ToLower filterNames) filter.
Proof.
  induction filter as [|value filter IH]; intros st; simpl.
  - split; [by constructor|by eauto].
  - rewrite Forall_cons, <-(parse_token_valid filterNames st value). split.
    + intros [st' H]. destruct (parse_token _ _ _ _) as [st1| | |] eqn:E; try done.
      simpl in H. split; [by eauto|]. apply (IH st1). by eauto.
    + intros [[st1 ->] Hrest]. simpl. by apply IH.
Qed.

Lemma token_key_Some (value : string) :
  is_Some (token_key ToLower value) ↔ Contains value "=" = true.
Proof.
  rewrite Contains_cut. unfold token_key.
  destruct (cut value "=") as [[name v]|]; split; intros [? ?]; by eauto.
Qed.

Lemma ParseFilterParameters_returns_iff (filter filterNames : list string) :
  (∃ r, ParseFilterParameters ToLower json_Marshal filter filterNames = Returns r) ↔
  Forall (token_valid ToLower filterNames) filter.
Proof.
  rewrite <-(parse_tokens_valid filterNames filter parse_init). unfold ParseFilterParameters.
  destruct (parse_tokens _ _ _ _) as [st| | |]; simpl; split; intros [? ?]; by eauto.
Qed.

Lemma ParseFilterParameters_stops (filterNames pre post : list string) (value : string)
    (status : Z) (stdout : string) :
  Forall (token_valid ToLower filterNames) pre →
  (∀ st, parse_token ToLower filterNames st value = Exits status stdout) →
  ParseFilterParameters ToLower json_Marshal (pre ++ value :: post) filterNames =
  Exits status stdout.
Proof.
  intros Hpre Hvalue. unfold ParseFilterParameters. rewrite parse_tokens_app.
  apply (parse_tokens_valid filterNames pre parse_init) in Hpre as [st ->].
  simpl. by rewrite Hvalue.
Qed.

(** C3 (amended). [ParseFilterParameters] returns exactly when every token
    contains [=], has a lowercased key among the declared names and, when
    that key is [status], a value among the run statuses. Otherwise the
    first token that fails one of these decides the error, whatever its
    position: without [=] the wrong-format message is printed, with an
    undeclared key the message that names the lowercased key, and the
    process exits with status 1. *)
Theorem ParseFilterParameters_first_offender (filter filterNames : list string) :
  ((∃ r, ParseFilterParameters ToLower json_Marshal filter filterNames = Returns r) ↔
   Forall (token_valid ToLower filterNames) filter) ∧
  (∀ pre value post,
     filter = pre ++ value :: post →
     Forall (token_valid ToLower filterNames) pre →
     (Contains value "=" = false →
      ParseFilterParameters ToLower json_Marshal filter filterNames =
      Exits 1 msg_wrong_format) ∧
     (∀ key, token_key ToLower value = Some key → key ∉ filterNames →
      ParseFilterParameters ToLower json_Marshal filter filterNames =
      Exits 1 (msg_invalid_filter key))).
Proof.
  split; [apply ParseFilterParameters_returns_iff|].
  intros pre value post -> Hpre. split.
  - intros Hno. apply ParseFilterParameters_stops; [done|]. intros st.
    rewrite parse_token_eq. by apply Contains_false_cut in Hno as ->.
  - intros key Hkey Hundeclared. apply ParseFilterParameters_stops; [done|]. intros st.
    rewrite parse_token_eq. unfold token_key in Hkey.
    destruct (cut value "=") as [[name v]|]; [|done]. injection Hkey as <-.
    simpl. by rewrite decide_True.
Qed.

(** C4 (amended). After tokens that parse, a token whose lowercased key is
    the declared key [status] stops the parser when its value is not a run
    status (the statuses include [deleted]): the message printed names the
    value, and only the value, and the exit status is 1. When the value is
    a run status the token is accepted and the value joins the status
    filters. *)
Theorem ParseFilterParameters_status_domain (filterNames pre post : list string)
    (name v : string) (st : parse_state) :
  parse_tokens ToLower filterNames parse_init pre = Returns st →
  Contains name "=" = false →
  ToLower name = "status" →
  "status" ∈ filterNames →
  (v ∉ GetRunStatuses true →
   ParseFilterParameters ToLower json_Marshal (pre ++ (name +:+ "=" +:+ v) :: post) filterNames =
   Exits 1 ("Error: Input status value " +:+ v +:+ " is not valid. ")) ∧
  (v ∈ GetRunStatuses true →
   parse_tokens ToLower filterNames parse_init (pre ++ [name +:+ "=" +:+ v]) =
   Returns {| searchFilters := searchFilters st;
              statusFilters := statusFilters st ++ [v] |}).
Proof.
  intros Hpre Hname Hlow Hdecl.
  assert (∀ st', parse_token ToLower filterNames st' (name +:+ "=" +:+ v) =
            if decide (v ∉ GetRunStatuses true) then Exits 1 (msg_invalid_status v)
            else Returns {| searchFilters := searchFilters st';
                            statusFilters := statusFilters st' ++ [v] |}) as Htok.
  { intros st'. rewrite parse_token_eq.
    change (name +:+ "=" +:+ v) with (name +:+ String "="%char v).
    rewrite cut_append by done. simpl.
    rewrite Hlow, decide_False by auto. by rewrite decide_True. }
  split; intros Hv.
  - apply ParseFilterParameters_stops.
    + apply (parse_tokens_valid filterNames pre parse_init). eauto.
    + intros st'. by rewrite Htok, decide_True.
  - rewrite parse_tokens_app, Hpre. simpl. by rewrite Htok, decide_False by auto.
Qed.

Lemma values_of_cons (key value : string) (rest : list string) :
  values_of ToLower key (value :: rest) =
  match cut value "=" with
  | Some (name, v) =>
      if decide (ToLower name = key) then v :: values_of ToLower key rest
      else values_of ToLower key rest
  | None => values_of ToLower key rest
  end.
Proof.
  simpl. unfold token_key, token_value. by destruct (cut value "=") as [[name v]|].
Qed.

(** What the loop has collected when it ends. *)
Lemma parse_tokens_state (filterNames filter : list string) : ∀ st st',
  parse_tokens ToLower filterNames st filter = Returns st' →
  statusFilters st' = statusFilters st ++ values_of ToLower "status" filter ∧
  searchFilters st' !! "status" = searchFilters st !! "status" ∧
  ∀ key, key ≠ "status" →
    searchFilters st' !! key =
    if decide (values_of ToLower key filter = []) then searchFilters st !! key
    else Some (default [] (searchFilters st !! key) ++ values_of ToLower key filter).
Proof.
  induction filter as [|value filter IH]; intros st st'.
  - simpl. intros [= <-]. rewrite app_nil_r. split_and!; [done..|]. by intros key _.
  - cbn [parse_tokens]. rewrite parse_token_eq. intros Hrun.
    destruct (cut value "=") as [[name v]|] eqn:Hcut; [|done]. simpl in Hrun.
    destruct (decide (ToLower name ∉ filterNames)); [done|].
    destruct (decide (ToLower name = "status")) as [Hs|Hs].
    + destruct (decide (v ∉ GetRunStatuses true)); [done|]. simpl in Hrun.
      apply IH in Hrun as (Hst & Hsearch & Hkeys).
      simpl in Hst, Hsearch, Hkeys. split_and!.
      * rewrite Hst, values_of_cons, Hcut, (decide_True (P := ToLower name = "status")) by done.
        by rewrite <-app_assoc.
      * done.
      * intros key Hkey.
        rewrite values_of_cons, Hcut, (decide_False (P := ToLower name = key)) by congruence.
        auto.
    + simpl in Hrun. apply IH in Hrun as (Hst & Hsearch & Hkeys).
      simpl in Hst, Hsearch, Hkeys. split_and!.
      * by rewrite Hst, values_of_cons, Hcut, (decide_False (P := ToLower name = "status")) by done.
      * by rewrite Hsearch, lookup_insert_ne.
      * intros key Hkey. rewrite values_of_cons, Hcut, (Hkeys key Hkey).
        destruct (decide (ToLower name = key)) as [<-|Hne].
        -- rewrite lookup_insert_eq. simpl.
           destruct (decide (values_of ToLower (ToLower name) filter = [])) as [->|].
           ++ done.
           ++ by rewrite <-app_assoc.
        -- by rewrite lookup_insert_ne.
Qed.

(** C5. When [ParseFilterParameters] returns, its first result is the
    values of the key [status] in input order, and its second result is
    built from the map that gives every other key that received a value
    its values in input order: the JSON text of that map when the map has
    an entry, the empty string when it has none. *)
Theorem ParseFilterParameters_partition (filter filterNames : list string)
    (statuses : list string) (search : string) :
  ParseFilterParameters ToLower json_Marshal filter filterNames = Returns (statuses, search) →
  statuses = values_of ToLower "status" filter ∧
  ∃ m : gmap string (list string),
    (∀ key, m !! key =
            if decide (key ≠ "status" ∧ values_of ToLower key filter ≠ [])
            then Some (values_of ToLower key filter) else None) ∧
    search = if decide (m = ∅) then "" else json_Marshal m.
Proof.
  unfold ParseFilterParameters.
  destruct (parse_tokens _ _ _ _) as [st| | |] eqn:Hrun; try done. simpl.
  intros [= <- <-]. apply parse_tokens_state in Hrun as (Hst & Hsearch & Hkeys).
  simpl in *. split; [done|]. exists (searchFilters st). split.
  - intros key. destruct (decide (key = "status")) as [->|Hkey].
    + rewrite Hsearch, lookup_empty. rewrite decide_False; [done|tauto].
    + rewrite (Hkeys key Hkey), lookup_empty. simpl.
      destruct (decide (values_of ToLower key filter = [])).
      * rewrite decide_False; [done|tauto].
      * by rewrite decide_True.
  - destruct (decide (searchFilters st = ∅)) as [->|Hne].
    + by rewrite map_size_empty.
    + rewrite decide_True; [done|]. apply map_size_non_empty_iff in Hne. lia.
Qed.

End ParseFilterParameters_facts.

Example ParseFilterParameters_mixed :
  ParseFilterParameters ascii_ToLower json_Marshal_plain
    ["Name=foo"; "status=running"; "name=bar=baz"; "size=3"; "STATUS=failed"]
    ["name"; "status"; "size"] =
  Returns (["running"; "failed"],
           "{" +:+ dquote +:+ "name" +:+ dquote +:+ ":["
               +:+ dquote +:+ "foo" +:+ dquote +:+ ","
               +:+ dquote +:+ "bar=baz" +:+ dquote +:+ "],"
               +:+ dquote +:+ "size" +:+ dquote +:+ ":["
               +:+ dquote +:+ "3" +:+ dquote +:+ "]}").
Proof. vm_compute. reflexivity. Qed.

(** C3, as stated, fails: every token of the first input contains [=] and
    has a declared key, yet the parser exits; the second input has a token
    without [=], yet the error is the one of the undeclared key before
    it. *)
Lemma ParseFilterParameters_shape_not_enough :
  let names := ["name"; "status"] in
  (Forall (λ t, Contains t "=" = true ∧
                ∃ key, token_key ascii_ToLower t = Some key ∧ key ∈ names)
     ["status=bogus"] ∧
   ParseFilterParameters ascii_ToLower json_Marshal_plain ["status=bogus"] names =
   Exits 1 "Error: Input status value bogus is not valid. ") ∧
  (Contains "noeq" "=" = false ∧
   ParseFilterParameters ascii_ToLower json_Marshal_plain ["bad=1"; "noeq"] names =
   Exits 1 "Error: Filter bad is not valid").
Proof.
  intros names. split_and!; try (vm_compute; reflexivity).
  constructor; [|constructor]. split; [vm_compute; reflexivity|].
  exists "status". split; [vm_compute; reflexivity|]. unfold names. set_solver.
Qed.

(** C4, as stated, fails: the message names the value and lists no run
    status. *)
Lemma ParseFilterParameters_status_message :
  let msg := "Error: Input status value bogus is not valid. " in
  ("bogus" ∉ GetRunStatuses true) ∧
  ParseFilterParameters ascii_ToLower json_Marshal_plain ["status=bogus"] ["name"; "status"] =
  Exits 1 msg ∧
  ContainsStr msg "bogus" = true ∧
  Forall (λ d, ContainsStr msg d = false) (GetRunStatuses true).
Proof.
  intros msg. split_and!; try (vm_compute; reflexivity).
  - compute_done.
  - repeat constructor.
Qed.

Lemma ParseFilterParameters_status_domain_witness :
  let names := ["name"; "status"] in
  let st := {| searchFilters := {[ "name" := ["foo"] ]}; statusFilters := [] |} in
  (parse_tokens ascii_ToLower names parse_init ["name=foo"] = Returns st ∧
   Contains "STATUS" "=" = false ∧ ascii_ToLower "STATUS" = "status" ∧ "status" ∈ names) ∧
  (("bogus" ∉ GetRunStatuses true) ∧
   ParseFilterParameters ascii_ToLower json_Marshal_plain
     ["name=foo"; "STATUS=bogus"; "status=running"] names =
   Exits 1 "Error: Input status value bogus is not valid. ") ∧
  ("deleted" ∈ GetRunStatuses true ∧
   parse_tokens ascii_ToLower names parse_init ["name=foo"; "STATUS=deleted"] =
   Returns {| searchFilters := {[ "name" := ["foo"] ]}; statusFilters := ["deleted"] |}).
Proof.
  intros names st.
  assert (parse_tokens ascii_ToLower names parse_init ["name=foo"] = Returns st) as Hpre
    by (vm_compute; reflexivity).
  assert (Contains "STATUS" "=" = false) as Hname by reflexivity.
  assert (ascii_ToLower "STATUS" = "status") as Hlow by reflexivity.
  assert ("status" ∈ names) as Hdecl by (unfold names; set_solver).
  assert ("bogus" ∉ GetRunStatuses true) as Hout by compute_done.
  assert ("deleted" ∈ GetRunStatuses true) as Hin by compute_done.
  split; [by split_and!|]. split; (split; [done|]).
  - exact (proj1 (ParseFilterParameters_status_domain ascii_ToLower json_Marshal_plain
             names ["name=foo"] ["status=running"] "STATUS" "bogus" st
             Hpre Hname Hlow Hdecl) Hout).
  - exact (proj2 (ParseFilterParameters_status_domain ascii_ToLower json_Marshal_plain
             names ["name=foo"] [] "STATUS" "deleted" st
             Hpre Hname Hlow Hdecl) Hin).
Defined.

Lemma ParseFilterParameters_partition_witness :
  let filter := ["Name=foo"; "status=running"; "name=bar"; "STATUS=failed"] in
  let names := ["name"; "status"; "size"] in
  ∃ search,
    ParseFilterParameters ascii_ToLower json_Marshal_plain filter names =
    Returns (["running"; "failed"], search) ∧
    ["running"; "failed"] = values_of ascii_ToLower "status" filter ∧
    ∃ m : gmap string (list string),
      (∀ key, m !! key =
              if decide (key ≠ "status" ∧ values_of ascii_ToLower key filter ≠ [])
              then Some (values_of ascii_ToLower key filter) else None) ∧
      search = if decide (m = ∅) then "" else json_Marshal_plain m.
Proof.
  intros filter names. eexists. split; [vm_compute; reflexivity|].
  eapply (ParseFilterParameters_partition ascii_ToLower json_Marshal_plain filter names).
  vm_compute. reflexivity.
Defined.

(** ** The job-log filter *)

Lemma foldl_delete_lookup {V : Type} (ks : list string) : ∀ (m : gmap string V) (k : string),
  foldl (λ m log, delete log m) m ks !! k = if decide (k ∈ ks) then None else m !! k.
Proof.
  induction ks as [|k' ks IH]; intros m k; cbn [foldl].
  - rewrite decide_False; [done|]. apply not_elem_of_nil.
  - rewrite IH. destruct (decide (k ∈ ks)) as [Hin|Hnin].
    + rewrite decide_True; [done|]. rewrite elem_of_cons. tauto.
    + destruct (decide (k = k')) as [->|Hne].
      * rewrite lookup_delete_eq, decide_True; [done|]. rewrite elem_of_cons. tauto.
      * rewrite lookup_delete_ne by done. rewrite decide_False; [done|].
        rewrite elem_of_cons. tauto.
Qed.

Section Logs_facts.
Context (ToLower : string → string) (ReanaComputeBackends : gmap string string)
  (LeadingMark : string).

Local Abbreviation fvalue := (filter_value ToLower ReanaComputeBackends).

Lemma unwanted_Exists (filters : Filters) (j : jobLogItem) (keys : list string) :
  unwanted ToLower ReanaComputeBackends filters (jobLogItem_json j) keys = true ↔
  Exists (λ key, fvalue filters key ≠ "" ∧ field j key ≠ fvalue filters key) keys.
Proof.
  induction keys as [|key keys IH]; simpl.
  - rewrite Exists_nil. done.
  - rewrite Exists_cons. unfold field in *.
    destruct (decide _) as [Hk|Hk]; [tauto|]. rewrite IH. tauto.
Qed.

Lemma unwanted_rejected (filters : Filters) (j : jobLogItem) :
  unwanted ToLower ReanaComputeBackends filters (jobLogItem_json j) (SingleFilterKeys filters)
    = true ↔
  rejected ToLower ReanaComputeBackends filters j.
Proof. apply unwanted_Exists. Qed.

Lemma elem_of_unwantedLogs (jobLogs : gmap string jobLogItem) (filters : Filters) (k : string) :
  k ∈ unwantedLogs ToLower ReanaComputeBackends jobLogs filters ↔
  ∃ j, jobLogs !! k = Some j ∧ rejected ToLower ReanaComputeBackends filters j.
Proof.
  unfold unwantedLogs. rewrite list_elem_of_fmap. split.
  - intros ([k' jv] & -> & Hin). apply list_elem_of_filter in Hin as [Hun Hin].
    apply elem_of_map_to_list in Hin. rewrite lookup_fmap in Hin. cbn [fst snd] in *.
    destruct (jobLogs !! k') as [j|] eqn:Hj; [|done]. injection Hin as <-.
    exists j. split; [done|]. by apply unwanted_rejected, Is_true_true.
  - intros (j & Hj & Hrej). exists (k, jobLogItem_json j). split; [done|].
    apply list_elem_of_filter. split; [by apply Is_true_true, unwanted_rejected|].
    apply elem_of_map_to_list. by rewrite lookup_fmap, Hj.
Qed.

(** The filtered map, key by key. *)
Lemma filterJobLogs_lookup (jobLogs : gmap string jobLogItem) (filters : Filters) (k : string) :
  (filterJobLogs ToLower ReanaComputeBackends jobLogs filters).1 !! k =
  match jobLogs !! k with
  | Some j => if decide (rejected ToLower ReanaComputeBackends filters j) then None else Some j
  | None => None
  end.
Proof.
  unfold filterJobLogs. simpl. rewrite foldl_delete_lookup.
  destruct (decide (k ∈ _)) as [Hin|Hnin].
  - apply elem_of_unwantedLogs in Hin as (j & -> & Hrej). by rewrite decide_True.
  - destruct (jobLogs !! k) as [j|] eqn:Hj; [|done].
    rewrite decide_False; [done|]. intros Hrej. apply Hnin, elem_of_unwantedLogs. eauto.
Qed.

Lemma rejected_iff (filters : Filters) (j : jobLogItem) :
  rejected ToLower ReanaComputeBackends filters j ↔
  ∃ key, key ∈ SingleFilterKeys filters ∧ fvalue filters key ≠ "" ∧
         field j key ≠ fvalue filters key.
Proof. unfold rejected. rewrite Exists_exists. done. Qed.

Lemma not_rejected_iff (filters : Filters) (j : jobLogItem) :
  ¬ rejected ToLower ReanaComputeBackends filters j ↔
  ∀ key, key ∈ SingleFilterKeys filters →
         fvalue filters key = "" ∨ field j key = fvalue filters key.
Proof.
  rewrite rejected_iff. split.
  - intros Hno key Hkey. destruct (decide (fvalue filters key = "")); [by left|right].
    destruct (decide (field j key = fvalue filters key)); [done|]. destruct Hno. eauto.
  - intros Hall (key & Hkey & Hne & Hdiff). destruct (Hall key Hkey); done.
Qed.


(** C9. [filterJobLogs] only deletes entries: the map it leaves is a
    sub-map of its input, so a job that is still there is the job that was
    there, field for field. *)
Theorem filterJobLogs_frame (jobLogs : gmap string jobLogItem) (filters : Filters) :
  (filterJobLogs ToLower ReanaComputeBackends jobLogs filters).1 ⊆ jobLogs ∧
  ∀ k j, (filterJobLogs ToLower ReanaComputeBackends jobLogs filters).1 !! k = Some j →
         jobLogs !! k = Some j.
Proof.
  assert (∀ k j, (filterJobLogs ToLower ReanaComputeBackends jobLogs filters).1 !! k = Some j →
                 jobLogs !! k = Some j) as Hsub.
  { intros k j. rewrite filterJobLogs_lookup.
    destruct (jobLogs !! k) as [j'|]; [|done]. by destruct (decide _). }
  split; [|done]. apply map_subseteq_spec. exact Hsub.
Qed.

Lemma filter_value_without_key (key k : string) (filters : Filters) :
  fvalue (without_key key filters) k = fvalue filters k.
Proof. done. Qed.

Lemma unwanted_without_key (filters : Filters) (jobLogValue : gmap string string)
    (keys : list string) :
  fvalue filters "compute_backend" = "" →
  unwanted ToLower ReanaComputeBackends (without_key "compute_backend" filters) jobLogValue
    (filter (λ k, k ≠ "compute_backend") keys) =
  unwanted ToLower ReanaComputeBackends filters jobLogValue keys.
Proof.
  intros Hcb. induction keys as [|key keys IH]; [done|].
  rewrite filter_cons. destruct (decide (key ≠ "compute_backend")) as [Hne|He].
  - simpl. rewrite filter_value_without_key, IH. done.
  - apply dec_stable in He as ->. rewrite IH. simpl.
    rewrite decide_False; [done|]. rewrite Hcb. tauto.
Qed.

(** C10. When the table has no entry for the lowercased [compute_backend]
    filter value, the value to compare with is the empty string and the
    filter removes nothing: [filterJobLogs] does what it does without the
    key [compute_backend], without an error, and a job that the other
    filters accept stays. *)
Theorem filterJobLogs_unknown_backend (jobLogs : gmap string jobLogItem) (filters : Filters) :
  ReanaComputeBackends !! ToLower (GetSingle filters "compute_backend") = None →
  filter_value ToLower ReanaComputeBackends filters "compute_backend" = "" ∧
  filterJobLogs ToLower ReanaComputeBackends jobLogs filters =
  filterJobLogs ToLower ReanaComputeBackends jobLogs (without_key "compute_backend" filters) ∧
  ∀ k j, jobLogs !! k = Some j →
    (∀ key, key ∈ SingleFilterKeys filters → key ≠ "compute_backend" →
            filter_value ToLower ReanaComputeBackends filters key = "" ∨
            field j key = filter_value ToLower ReanaComputeBackends filters key) →
    (filterJobLogs ToLower ReanaComputeBackends jobLogs filters).1 !! k = Some j.
Proof.
  intros Hnone.
  assert (fvalue filters "compute_backend" = "") as Hcb.
  { unfold filter_value. rewrite decide_True by done. by rewrite Hnone. }
  split; [done|]. split.
  - unfold filterJobLogs, unwantedLogs. simpl. do 3 f_equal.
    apply list_filter_iff. intros [k jv]. simpl.
    by rewrite unwanted_without_key.
  - intros k j Hj Hrest. rewrite filterJobLogs_lookup, Hj.
    rewrite decide_False; [done|]. apply not_rejected_iff. intros key Hkey.
    destruct (decide (key = "compute_backend")) as [->|Hne]; [by left|]. auto.
Qed.

End Logs_facts.


Example filterJobLogs_spec_record :
  (filterJobLogs ascii_ToLower example_backends {[ "job-1" := example_job ]}
     (example_filters "kubernetes")).1 = {[ "job-1" := example_job ]} ∧
  (filterJobLogs ascii_ToLower example_backends {[ "job-1" := example_job ]}
     (example_filters "htcondor")).1 = ∅.
Proof. split; vm_compute; reflexivity. Qed.

(** A table without an entry for [htcondor]: the filter removes nothing. *)
Lemma filterJobLogs_unknown_backend_witness :
  let backends : gmap string string := {[ "kubernetes" := "k8s" ]} in
  let jobLogs : gmap string jobLogItem := {[ "job-1" := example_job ]} in
  let filters := example_filters "htcondor" in
  backends !! ascii_ToLower (GetSingle filters "compute_backend") = None ∧
  (filterJobLogs ascii_ToLower backends jobLogs filters).1 !! "job-1" = Some example_job.
Proof.
  intros backends jobLogs filters.
  assert (backends !! ascii_ToLower (GetSingle filters "compute_backend") = None) as Hnone
    by reflexivity.
  split; [exact Hnone|].
  apply (proj2 (proj2 (filterJobLogs_unknown_backend ascii_ToLower backends jobLogs filters
                         Hnone)) "job-1" example_job eq_refl).
  intros key Hkey Hne. left. simpl in Hkey.
  apply elem_of_cons in Hkey as [->|Hkey]; [done|].
  apply elem_of_cons in Hkey as [->|Hkey]; [reflexivity|].
  apply elem_of_cons in Hkey as [->|Hkey]; [reflexivity|].
  by apply elem_of_nil in Hkey.
Defined.

(** ** The log display *)

Section Display_facts.
Context (ToLower : string → string) (ReanaComputeBackends : gmap string string)
  (LeadingMark : string).

Lemma elem_of_returnedStepNames (l : logs) (step : string) :
  step ∈ returnedStepNames l ↔
  ∃ id item, JobLogs l !! id = Some item ∧ JobName item = step.
Proof.
  unfold returnedStepNames. rewrite list_elem_of_fmap. split.
  - intros ([id item] & -> & Hin). apply elem_of_map_to_list in Hin. by exists id, item.
  - intros (id & item & Hin & <-). exists (id, item). split; [done|].
    by apply elem_of_map_to_list.
Qed.

Lemma elem_of_missingStepNames (l : logs) (steps : list string) (step : string) :
  step ∈ missingStepNames l steps ↔
  step ∈ steps ∧ ¬ ∃ id item, JobLogs l !! id = Some item ∧ JobName item = step.
Proof.
  unfold missingStepNames, slices_Contains.
  rewrite list_elem_of_filter, bool_decide_eq_false, elem_of_returnedStepNames. tauto.
Qed.

Lemma displayLogHeader_no_error (title : string) :
  Forall (λ e, ¬ is_error_message e) (displayLogHeader LeadingMark title).
Proof. repeat constructor. by intros []. Qed.

Lemma displayLogItem_no_error (item : option string) (title status : string) :
  Forall (λ e, ¬ is_error_message e) (displayLogItem LeadingMark item title status).
Proof.
  unfold displayLogItem. destruct item as [text|]; [|constructor].
  destruct (decide (text = "")); repeat constructor; by intros [].
Qed.

Lemma displayJob_no_error (jobId : string) (jobItem : jobLogItem) :
  Forall (λ e, ¬ is_error_message e) (displayJob LeadingMark jobId jobItem).
Proof.
  unfold displayJob. rewrite !Forall_app. split_and!;
    try apply displayLogItem_no_error.
  - repeat constructor. by intros [].
  - destruct (decide _); [apply displayLogItem_no_error|]. repeat constructor. by intros [].
Qed.

(** The four parts of the output. *)
Lemma error_messages_displayed (l : logs) (steps : list string) (e : event) :
  is_error_message e →
  e ∈ displayHumanFriendlyLogs LeadingMark l steps ↔
  missingStepNames l steps ≠ [] ∧
  e = DisplayMessage (msg_steps_not_found (missingStepNames l steps)) Error false Stderr.
Proof.
  intros He. unfold displayHumanFriendlyLogs. rewrite !elem_of_app.
  assert (∀ es, Forall (λ e, ¬ is_error_message e) es → e ∈ es ↔ False) as Hno.
  { intros es Hes. split; [|done]. intros Hin. by eapply Forall_forall in Hes. }
  rewrite (Hno (match WorkflowLogs l with Some _ => _ | None => _ end)).
  2:{ destruct (WorkflowLogs l) as [text|]; [|constructor].
      destruct (decide _); [|constructor]. apply Forall_app. split.
      - apply displayLogHeader_no_error.
      - repeat constructor. by intros []. }
  rewrite (Hno (match EngineSpecific l with Some _ => _ | None => _ end)).
  2:{ destruct (EngineSpecific l) as [text|]; [|constructor].
      destruct (decide _); [|constructor]. apply Forall_app. split.
      - apply displayLogHeader_no_error.
      - repeat constructor. by intros []. }
  rewrite (Hno (if decide (0 < size (JobLogs l)) then _ else _)).
  2:{ destruct (decide _); [|constructor]. apply Forall_app. split.
      - apply displayLogHeader_no_error.
      - apply Forall_bind, Forall_forall. intros [id item] _.
        apply displayJob_no_error. }
  assert (missingStepNames l steps ≠ [] ↔ 0 < length (missingStepNames l steps)) as Hlen.
  { destruct (missingStepNames l steps); simpl; split; (done || lia). }
  destruct (decide (0 < length steps)) as [Hsteps|Hsteps].
  - simpl. destruct (decide (0 < length (missingStepNames l steps))) as [Hm|Hm].
    + rewrite list_elem_of_singleton. tauto.
    + rewrite elem_of_nil. tauto.
  - rewrite elem_of_nil. split; [tauto|]. intros [Hm _].
    destruct steps; [done|]. simpl in Hsteps. lia.
Qed.

Lemma displayJob_displayed (l : logs) (steps : list string) (id : string) (item : jobLogItem) :
  JobLogs l !! id = Some item →
  displayJob LeadingMark id item ⊆ displayHumanFriendlyLogs LeadingMark l steps.
Proof.
  intros Hitem e He. unfold displayHumanFriendlyLogs. rewrite !elem_of_app.
  do 3 right. rewrite decide_True.
  2:{ assert (JobLogs l ≠ ∅) as Hne by (intros Hemp; by rewrite Hemp in Hitem).
      apply map_size_non_empty_iff in Hne. lia. }
  rewrite elem_of_app. right. apply list_elem_of_bind.
  exists (id, item). split; [done|]. by apply elem_of_map_to_list.
Qed.

(** What is written for a job of the response: the header line with the
    name under which the job is displayed, and its logs under their title,
    or the message that the step emitted no logs. *)
Lemma displayJob_shows (l : logs) (steps : list string) (id : string) (item : jobLogItem) :
  JobLogs l !! id = Some item →
  PrintColorable (LeadingMark +:+ " Step: " +:+ jobNameOrId id item +:+ newline) Stdout
    [Bold; JobStatusToColor (Status item)]
    ∈ displayHumanFriendlyLogs LeadingMark l steps ∧
  (Logs item = "" →
   DisplayMessage ("Step " +:+ jobNameOrId id item +:+ " emitted no logs.") Info false Stdout
     ∈ displayHumanFriendlyLogs LeadingMark l steps) ∧
  (Logs item ≠ "" →
   PrintColorable (LeadingMark +:+ " Logs: ") Stdout [JobStatusToColor (Status item)]
     ∈ displayHumanFriendlyLogs LeadingMark l steps ∧
   Println (newline +:+ Logs item) ∈ displayHumanFriendlyLogs LeadingMark l steps).
Proof.
  intros Hitem.
  pose proof (displayJob_displayed l steps id item Hitem) as Hsub.
  split_and!; [|intros Hlogs|intros Hlogs; split]; apply Hsub;
    unfold displayJob; rewrite !elem_of_app.
  - left. by apply list_elem_of_singleton.
  - do 9 right. rewrite (decide_False (P := Logs item ≠ "")) by (intros Hn; by apply Hn).
    by apply list_elem_of_singleton.
  - do 9 right. rewrite (decide_True (P := Logs item ≠ "")) by done. unfold displayLogItem.
    rewrite decide_False by (by destruct (Logs item)).
    apply elem_of_cons. by left.
  - do 9 right. rewrite (decide_True (P := Logs item ≠ "")) by done. unfold displayLogItem.
    rewrite decide_False by (by destruct (Logs item)).
    apply elem_of_cons. right. by apply list_elem_of_singleton.
Qed.

(** C8 (amended). For every response and every list of requested steps,
    [displayHumanFriendlyLogs] takes as missing the requested steps that
    are the [job_name] of no returned job: the comparison is with that
    field, not with the name under which a job is displayed, which is the
    job's ID when the name is empty. An error message is written exactly
    when some step is missing; it is the message that lists the missing
    steps, on standard error. Every returned job is displayed all the same:
    its header line with its displayed name, and its logs under their title
    or the message that the step emitted no logs. Without [--json] the
    command displays the jobs that its filters keep in this way and returns
    no error; with [--json] it runs the JSON display of the filtered logs
    alone, whatever the steps, and no step is reported. *)
Theorem displayHumanFriendlyLogs_reports_missing
    (DisplayJsonOutput : logs → list event * option error)
    (l : logs) (steps : list string) :
  let missing := missingStepNames l steps in
  let out := displayHumanFriendlyLogs LeadingMark l steps in
  (∀ step, step ∈ missing ↔
           step ∈ steps ∧ ¬ ∃ id item, JobLogs l !! id = Some item ∧ JobName item = step) ∧
  (∀ message indented w,
     DisplayMessage message Error indented w ∈ out ↔
     missing ≠ [] ∧ message = msg_steps_not_found missing ∧ indented = false ∧ w = Stderr) ∧
  (∀ id item, JobLogs l !! id = Some item →
     PrintColorable (LeadingMark +:+ " Step: " +:+ jobNameOrId id item +:+ newline) Stdout
       [Bold; JobStatusToColor (Status item)] ∈ out ∧
     (Logs item = "" →
      DisplayMessage ("Step " +:+ jobNameOrId id item +:+ " emitted no logs.")
        Info false Stdout ∈ out) ∧
     (Logs item ≠ "" →
      PrintColorable (LeadingMark +:+ " Logs: ") Stdout [JobStatusToColor (Status item)] ∈ out ∧
      Println (newline +:+ Logs item) ∈ out)) ∧
  (∀ filters,
     let filtered :=
       {| WorkflowLogs := WorkflowLogs l;
          JobLogs := (filterJobLogs ToLower ReanaComputeBackends (JobLogs l) filters).1;
          EngineSpecific := EngineSpecific l |} in
     run_display ToLower ReanaComputeBackends LeadingMark DisplayJsonOutput false
       l filters steps =
     (displayHumanFriendlyLogs LeadingMark filtered steps, None) ∧
     run_display ToLower ReanaComputeBackends LeadingMark DisplayJsonOutput true
       l filters steps =
     DisplayJsonOutput filtered).
Proof.
  intros missing out. split_and!.
  - apply elem_of_missingStepNames.
  - intros message indented w. unfold out. rewrite error_messages_displayed by done.
    unfold missing. split.
    + by intros [? [= -> -> ->]].
    + by intros (? & -> & -> & ->).
  - intros id item. apply displayJob_shows.
  - intros filters filtered. split; [done|].
    unfold filtered, run_display. cbn.
    by destruct (DisplayJsonOutput _) as [written [err|]].
Qed.

End Display_facts.

(** A requested step that no job has: reported on standard error, and the
    command returns no error. *)
Lemma displayHumanFriendlyLogs_reports_missing_witness :
  DisplayMessage
    "The logs of step(s) does_not_exist were not found, check for spelling mistakes in the step names"
    Error false Stderr
    ∈ displayHumanFriendlyLogs ">>" example_logs ["fit"; "does_not_exist"] ∧
  Println (newline +:+ "done")
    ∈ displayHumanFriendlyLogs ">>" example_logs ["fit"; "does_not_exist"] ∧
  (run_display ascii_ToLower example_backends ">>" no_DisplayJsonOutput false
     example_logs (example_filters "") ["fit"; "does_not_exist"]).2 = None.
Proof.
  pose proof (displayHumanFriendlyLogs_reports_missing ascii_ToLower example_backends ">>"
                no_DisplayJsonOutput example_logs ["fit"; "does_not_exist"])
    as (_ & Hmsg & Hjob & Hrun).
  split_and!.
  - apply Hmsg. split_and!; [vm_compute; discriminate|vm_compute; reflexivity|done..].
  - destruct (Hjob "job-1" example_job eq_refl) as (_ & _ & Hlogs).
    apply Hlogs. discriminate.
  - destruct (Hrun (example_filters "")) as [-> _]. reflexivity.
Defined.

(** C8, as stated, fails: the step names are compared with the job names,
    not with the names that are displayed. A job without a name is
    displayed under its ID; requesting that ID reports it as not found, and
    requesting the empty name reports nothing. *)
Lemma displayHumanFriendlyLogs_displayed_name :
  let out := displayHumanFriendlyLogs ">>" example_unnamed_logs ["job-1"] in
  jobNameOrId "job-1" example_unnamed_job = "job-1" ∧
  PrintColorable (">> Step: job-1" +:+ newline) Stdout [Bold; JobStatusToColor "finished"]
    ∈ out ∧
  missingStepNames example_unnamed_logs ["job-1"] = ["job-1"] ∧
  DisplayMessage (msg_steps_not_found ["job-1"]) Error false Stderr ∈ out ∧
  missingStepNames example_unnamed_logs [""] = [].
Proof.
  intros out. split_and!; try (vm_compute; reflexivity);
    apply list_elem_of_In; vm_compute; tauto.
Qed.

(** ** The du display *)

Lemma du_rows_filter (humanReadable : bool) (infos : list diskUsageInfo) :
  du_rows humanReadable infos =
  du_row humanReadable
    <$> filter (λ info, HasAnyPrefix (Name info) FilesBlacklist = false) infos.
Proof.
  induction infos as [|info infos IH]; [done|]. cbn [du_rows]. rewrite filter_cons.
  destruct (HasAnyPrefix (Name info) FilesBlacklist) eqn:Hp.
  - by rewrite decide_False.
  - rewrite decide_True by done. by rewrite fmap_cons, IH.
Qed.

Section EmptyResults.
Context (ToLower : string → string) (ReanaComputeBackends : gmap string string)
  (LeadingMark : string) (DisplayJsonOutput : logs → list event * option error).

(** C7 (amended). When the response has no disk-usage entry, [du] returns
    the error [no files matching filter criteria] and displays nothing; when
    some entry is not blacklisted, it displays the table of the entries that
    are not blacklisted, which has a row, and returns no error. The [logs]
    command makes no test for an empty result: without [--json] it returns
    no error after filtering, whatever the filters leave; with [--json] it
    writes and returns what the JSON display does for the filtered logs,
    so that its only error is the error of that display. *)
Theorem displayDuPayload_empty_response (infos : list diskUsageInfo) (humanReadable : bool) :
  (infos = [] →
   displayDuPayload infos humanReadable = ([], Some "no files matching filter criteria")) ∧
  (Exists (λ info, HasAnyPrefix (Name info) FilesBlacklist = false) infos →
   ∃ rows, rows ≠ [] ∧
     rows = du_row humanReadable
              <$> filter (λ info, HasAnyPrefix (Name info) FilesBlacklist = false) infos ∧
     displayDuPayload infos humanReadable = ([DisplayTable ["SIZE"; "NAME"] rows Stdout], None)) ∧
  (∀ workflowLogs filters steps,
     (run_display ToLower ReanaComputeBackends LeadingMark DisplayJsonOutput false
        workflowLogs filters steps).2 = None ∧
     run_display ToLower ReanaComputeBackends LeadingMark DisplayJsonOutput true
       workflowLogs filters steps =
     DisplayJsonOutput
       {| WorkflowLogs := WorkflowLogs workflowLogs;
          JobLogs :=
            (filterJobLogs ToLower ReanaComputeBackends (JobLogs workflowLogs) filters).1;
          EngineSpecific := EngineSpecific workflowLogs |}).
Proof.
  split_and!.
  - by intros ->.
  - intros Hex. eexists. split_and!; [|reflexivity|].
    + apply Exists_exists in Hex as (info & Hin & Hinfo).
      intros Hnil. apply fmap_nil_inv in Hnil.
      exact (filter_nil_not_elem_of _ _ info Hnil Hinfo Hin).
    + unfold displayDuPayload. destruct infos; [by apply Exists_nil in Hex|].
      by rewrite du_rows_filter.
  - intros workflowLogs filters steps. split; [done|].
    unfold run_display. cbn.
    by destruct (DisplayJsonOutput _) as [written [err|]].
Qed.

End EmptyResults.

(** C7, as stated, fails: a response whose only entry is blacklisted
    leaves no row, and [du] displays the empty table and returns no error;
    and when the filters of [logs] remove every job, the command without
    [--json] displays nothing and returns no error. *)
Lemma displayDuPayload_blacklisted_only :
  let infos :=
    [{| Name := "/.git/config"; Size := {| HumanReadable := "1 KiB"; Raw := 1024 |} |}] in
  (du_rows false infos = [] ∧
   displayDuPayload infos false = ([DisplayTable ["SIZE"; "NAME"] [] Stdout], None)) ∧
  ((filterJobLogs ascii_ToLower example_backends (JobLogs example_logs)
      (example_filters "htcondor")).1 = ∅ ∧
   run_display ascii_ToLower example_backends ">>" no_DisplayJsonOutput false
     example_logs (example_filters "htcondor") []
   = ([], None)).
Proof. intros infos. split_and!; vm_compute; reflexivity. Qed.

Example displayDuPayload_one_file :
  displayDuPayload
    [{| Name := "/.git/config"; Size := {| HumanReadable := "1 KiB"; Raw := 1024 |} |};
     {| Name := "/data/x.root"; Size := {| HumanReadable := "2 KiB"; Raw := 2048 |} |}] true =
  ([DisplayTable ["SIZE"; "NAME"] [[CStr "2 KiB"; CStr "./data/x.root"]] Stdout], None).
Proof. vm_compute. reflexivity. Qed.

(** * Further properties *)

(** ** utils.go: prefixes, workflow names and format rules *)

Lemma HasPrefix_spec (s prefix : string) :
  HasPrefix s prefix = true ↔ ∃ rest, s = prefix +:+ rest.
Proof.
  revert s. induction prefix as [|p prefix IH]; intros s; simpl.
  - destruct s; (split; [intros _; by eexists|done]).
  - destruct s as [|c s].
    + split; [done|]. by intros [rest ?].
    + destruct (decide (c = p)) as [->|Hne].
      * simpl. rewrite decide_True by done. rewrite IH.
        split; intros [rest Hrest]; exists rest.
        -- by rewrite Hrest.
        -- by injection Hrest.
      * simpl. rewrite decide_False by done. split; [done|]. intros [rest [= ? ?]]. done.
Qed.

(** X1. [HasAnyPrefix s prefixes] is true exactly when [s] is one of the
    prefixes followed by some text; in particular it is false for every
    [s] when there is no prefix, and true for every [s] when the empty
    string is among the prefixes. *)
Theorem HasAnyPrefix_spec (s : string) (prefixes : list string) :
  HasAnyPrefix s prefixes = true ↔
  ∃ prefix rest, prefix ∈ prefixes ∧ s = prefix +:+ rest.
Proof.
  induction prefixes as [|prefix prefixes IH]; simpl.
  - split; [done|]. intros (? & ? & Hin & _). by apply elem_of_nil in Hin.
  - destruct (HasPrefix s prefix) eqn:Hp.
    + split; [|done]. intros _. apply HasPrefix_spec in Hp as [rest ->].
      exists prefix, rest. split; [apply elem_of_cons; by left|done].
    + rewrite IH. split.
      * intros (p & rest & Hin & ->). exists p, rest. split; [apply elem_of_cons; by right|done].
      * intros (p & rest & Hin & ->). apply elem_of_cons in Hin as [->|Hin].
        -- assert (HasPrefix (prefix +:+ rest) prefix = true) as Ht
             by (apply HasPrefix_spec; eauto). congruence.
        -- eauto.
Qed.

Lemma cut_Some (s : string) (sep : ascii) (a b : string) :
  cut s sep = Some (a, b) → s = a +:+ String sep b ∧ Contains a sep = false.
Proof.
  revert a. induction s as [|c s IH]; intros a; simpl; [done|].
  destruct (decide (c = sep)) as [->|Hne].
  - by intros [= <- <-].
  - destruct (cut s sep) as [[a' b']|]; [|done]. intros [= <- <-].
    destruct (IH a' eq_refl) as [-> Ha]. simpl. by rewrite decide_False.
Qed.

Lemma cut_None (s : string) (sep : ascii) :
  cut s sep = None ↔ Contains s sep = false.
Proof.
  induction s as [|c s IH]; simpl; [done|].
  destruct (decide (c = sep)); [done|].
  rewrite <-IH. by destruct (cut s sep) as [[??]|].
Qed.

(** X2. [GetWorkflowNameAndRunNumber] never panics. The name it returns
    holds no dot. A workflow name without a dot is returned whole, with the
    empty run number; otherwise the input is the returned name, a dot and
    the returned run number, so the split is at the first dot and the run
    number keeps any further dots. *)
Theorem GetWorkflowNameAndRunNumber_spec (workflowName : string) :
  ∃ name runNumber,
    GetWorkflowNameAndRunNumber workflowName = Returns (name, runNumber) ∧
    Contains name "." = false ∧
    ((Contains workflowName "." = false ∧ name = workflowName ∧ runNumber = "") ∨
     (Contains workflowName "." = true ∧ workflowName = name +:+ "." +:+ runNumber)).
Proof.
  unfold GetWorkflowNameAndRunNumber, SplitN2.
  destruct (cut workflowName ".") as [[name runNumber]|] eqn:Hcut.
  - apply cut_Some in Hcut as [-> Hname]. exists name, runNumber. simpl.
    split_and!; [done..|]. right. split; [|done].
    clear Hname. induction name as [|c name IH]; simpl; [done|]. by destruct (decide _).
  - apply cut_None in Hcut. exists workflowName, "". simpl. split_and!; [done..|]. by left.
Qed.

Lemma format_token_eq (parsedFilters : gmap string string) (filter : string) :
  format_token parsedFilters filter =
  Returns (<[format_name filter := format_value filter]> parsedFilters).
Proof.
  unfold format_token, format_name, format_value, SplitN2.
  by destruct (cut filter "=") as [[name value]|].
Qed.

Lemma format_tokens_app (filters1 filters2 : list string) : ∀ parsedFilters,
  format_tokens parsedFilters (filters1 ++ filters2) =
  format_tokens parsedFilters filters1 ≫= λ m, format_tokens m filters2.
Proof.
  induction filters1 as [|f filters1 IH]; intros m; simpl; [done|].
  rewrite format_token_eq. simpl. apply IH.
Qed.

Lemma format_tokens_lookup (filters : list string) : ∀ parsedFilters,
  ∃ m, format_tokens parsedFilters filters = Returns m ∧
    ∀ name, m !! name =
      match last_format_value name filters with
      | Some v => Some v
      | None => parsedFilters !! name
      end.
Proof.
  induction filters as [|f filters IH] using rev_ind; intros m0.
  - exists m0. by split.
  - destruct (IH m0) as (m & Hm & Hlookup). rewrite format_tokens_app, Hm. simpl.
    rewrite format_token_eq. eexists. split; [done|]. intros name.
    unfold last_format_value. rewrite filter_app, filter_cons, filter_nil.
    destruct (decide (format_name f = name)) as [<-|Hne].
    + rewrite last_snoc. simpl. by rewrite lookup_insert_eq.
    + rewrite app_nil_r, lookup_insert_ne by done. apply Hlookup.
Qed.

(** X3. [ParseFormatParameters] never panics and never fails, whatever the
    tokens. The map it returns gives each name the value of the last token
    with that name (the text before the first [=]; the whole token, with
    the empty value, when there is none), and holds no other name. *)
Theorem ParseFormatParameters_last_wins (filters : list string) :
  ∃ m, ParseFormatParameters filters = Returns m ∧
    ∀ name, m !! name = last_format_value name filters.
Proof.
  destruct (format_tokens_lookup filters ∅) as (m & Hm & Hlookup).
  exists m. split; [done|]. intros name. rewrite Hlookup, lookup_empty.
  by destruct (last_format_value name filters).
Qed.

Lemma last_format_value_is_Some (name : string) (filters : list string) :
  is_Some (last_format_value name filters) ↔ name ∈ format_name <$> filters.
Proof.
  unfold last_format_value. rewrite fmap_is_Some, list_elem_of_fmap.
  split.
  - intros [f Hf]. apply last_Some_elem_of, list_elem_of_filter in Hf as [? ?]. eauto.
  - intros (f & -> & Hin).
    destruct (last (filter (λ f0, format_name f0 = format_name f) filters)) eqn:Hl; [by eauto|].
    exfalso. apply last_None in Hl. exact (filter_nil_not_elem_of _ _ f Hl eq_refl Hin).
Qed.

Section Format_facts.
Context {any : Type} (Sprint : any → string).

(** X4. The [--format] pipeline. For at least one format token and rows
    as long as the header, [FormatData] with the rules that
    [ParseFormatParameters] reads from the tokens returns the header
    restricted to the columns that some token names, in the header's order,
    and the rows that satisfy every valued rule, cut down to those
    columns. *)
Theorem ParseFormatParameters_FormatData (filters header : list string)
    (data : list (list any)) :
  filters ≠ [] →
  aligned header data →
  ∃ rules, ParseFormatParameters filters = Returns rules ∧
    FormatData Sprint rules data header =
    Returns (filter (λ column, column ∈ format_name <$> filters) header,
             projected rules header <$> filter (row_ok Sprint rules header) data).
Proof.
  intros Hne Hal. destruct (format_tokens_lookup filters ∅) as (rules & Hrules & Hlookup).
  exists rules. split; [done|].
  assert (∀ name, wanted rules name ↔ name ∈ format_name <$> filters) as Hwanted.
  { intros name. rewrite <-last_format_value_is_Some. unfold wanted.
    rewrite Hlookup, lookup_empty. by destruct (last_format_value name filters). }
  unfold FormatData. rewrite decide_False.
  - pose proof (format_columns_aligned Sprint rules header [] data (length header)
                  (le_n _) Hal) as Hrun.
    simpl in Hrun. rewrite Hrun. f_equal. f_equal. by apply list_filter_iff.
  - destruct filters as [|f filters]; [done|].
    assert (rules ≠ ∅) as Hrules_ne.
    { intros ->. specialize (Hwanted (format_name f)). unfold wanted in Hwanted.
      rewrite lookup_empty in Hwanted. destruct (proj2 Hwanted) as [? ?]; [|done].
      rewrite fmap_cons. apply elem_of_cons. by left. }
    apply map_size_non_empty_iff in Hrules_ne. lia.
Qed.

End Format_facts.

Lemma ParseFormatParameters_FormatData_witness :
  let filters := ["NAME"; "STATUS=failed"] in
  let header := ["ID"; "NAME"; "STATUS"] in
  let data := [[CInt 1; CStr "x"; CStr "failed"]; [CInt 2; CStr "y"; CStr "finished"]] in
  filters ≠ [] ∧ aligned header data ∧
  ∃ rules, ParseFormatParameters filters = Returns rules ∧
    FormatData Sprint_cell rules data header =
    Returns (filter (λ column, column ∈ format_name <$> filters) header,
             projected rules header <$> filter (row_ok Sprint_cell rules header) data).
Proof.
  intros filters header data.
  assert (filters ≠ []) as Hne by discriminate.
  assert (aligned header data) as Hal by (repeat constructor).
  split; [exact Hne|]. split; [exact Hal|].
  exact (ParseFormatParameters_FormatData Sprint_cell filters header data Hne Hal).
Defined.

(** The same run, evaluated. *)
Example ParseFormatParameters_FormatData_run :
  (rules ← ParseFormatParameters ["NAME"; "STATUS=failed"];
   FormatData Sprint_cell rules
     [[CInt 1; CStr "x"; CStr "failed"]; [CInt 2; CStr "y"; CStr "finished"]]
     ["ID"; "NAME"; "STATUS"]) =
  Returns (["NAME"; "STATUS"], [[CStr "x"; CStr "failed"]]).
Proof. vm_compute. reflexivity. Qed.

(** ** utils.go: more on the filter parser *)

Section ParseFilterParameters_more.
Context (ToLower : string → string) (json_Marshal : gmap string (list string) → string).

Lemma parse_token_end (filterNames : list string) (st : parse_state) (value : string) :
  parse_end (parse_token ToLower filterNames st value).
Proof.
  rewrite parse_token_eq. destruct (cut value "=") as [[name v]|]; [|constructor].
  simpl. repeat (destruct (decide _)); constructor.
Qed.

Lemma parse_tokens_end (filterNames filter : list string) : ∀ st,
  parse_end (parse_tokens ToLower filterNames st filter).
Proof.
  induction filter as [|value filter IH]; intros st; simpl; [constructor|].
  pose proof (parse_token_end filterNames st value) as Hend.
  destruct Hend; simpl; [apply IH|constructor..].
Qed.

(** X5. [ParseFilterParameters] ends in one of four ways, whatever the
    tokens and the declared names: it returns, or it exits with status 1
    after printing the wrong-format message, the message of an undeclared
    filter key, or the message of an invalid status value. It never panics
    (its indexing of the split token is guarded by the test for [=]). *)
Theorem ParseFilterParameters_ends (filter filterNames : list string) :
  (∃ r, ParseFilterParameters ToLower json_Marshal filter filterNames = Returns r) ∨
  ParseFilterParameters ToLower json_Marshal filter filterNames = Exits 1 msg_wrong_format ∨
  (∃ key, ParseFilterParameters ToLower json_Marshal filter filterNames =
          Exits 1 (msg_invalid_filter key)) ∨
  (∃ v, ParseFilterParameters ToLower json_Marshal filter filterNames =
        Exits 1 (msg_invalid_status v)).
Proof.
  unfold ParseFilterParameters.
  pose proof (parse_tokens_end filterNames filter parse_init) as Hend.
  destruct Hend; simpl; eauto.
Qed.

Lemma values_of_status_valid (filterNames filter : list string) :
  Forall (token_valid ToLower filterNames) filter →
  Forall (λ v, v ∈ GetRunStatuses true) (values_of ToLower "status" filter) ∧
  (values_of ToLower "status" filter ≠ [] → "status" ∈ filterNames).
Proof.
  induction 1 as [|value filter (key & v & Hkey & Hv & Hdecl & Hstatus) _ [IH1 IH2]]; [done|].
  simpl. rewrite Hkey, Hv. destruct (decide (key = "status")) as [->|]; [|done].
  split; [constructor; auto|done].
Qed.

(** X6. Every status filter that [ParseFilterParameters] returns is a run
    status (deleted included), and it returns status filters only when
    [status] is a declared filter name. *)
Theorem ParseFilterParameters_statuses_valid (filter filterNames statuses : list string)
    (search : string) :
  ParseFilterParameters ToLower json_Marshal filter filterNames = Returns (statuses, search) →
  Forall (λ v, v ∈ GetRunStatuses true) statuses ∧
  (statuses ≠ [] → "status" ∈ filterNames).
Proof.
  intros Hrun.
  assert (Forall (token_valid ToLower filterNames) filter) as Hvalid
    by (apply (ParseFilterParameters_returns_iff ToLower json_Marshal); eauto).
  unfold ParseFilterParameters in Hrun.
  destruct (parse_tokens _ _ _ _) as [st| | |] eqn:Htokens; try done.
  simpl in Hrun. injection Hrun as <- <-.
  apply parse_tokens_state in Htokens as (-> & _ & _). simpl.
  by apply values_of_status_valid.
Qed.

Lemma parse_token_same_key (filterNames : list string) (st : parse_state)
    (name1 name2 v : string) :
  Contains name1 "=" = false → Contains name2 "=" = false →
  ToLower name1 = ToLower name2 →
  parse_token ToLower filterNames st (name1 +:+ "=" +:+ v) =
  parse_token ToLower filterNames st (name2 +:+ "=" +:+ v).
Proof.
  intros H1 H2 Hlow. rewrite !parse_token_eq.
  change (name1 +:+ "=" +:+ v) with (name1 +:+ String "="%char v).
  change (name2 +:+ "=" +:+ v) with (name2 +:+ String "="%char v).
  rewrite !cut_append by done. simpl. by rewrite Hlow.
Qed.

(** X7. Filter keys are read without regard to case: replacing the key of
    one token by a key with the same lowercase form changes nothing in what
    [ParseFilterParameters] does, be it the returned filters or the error
    and exit. The value keeps its case. *)
Theorem ParseFilterParameters_key_case (filterNames pre post : list string)
    (name1 name2 v : string) :
  Contains name1 "=" = false → Contains name2 "=" = false →
  ToLower name1 = ToLower name2 →
  ParseFilterParameters ToLower json_Marshal (pre ++ (name1 +:+ "=" +:+ v) :: post) filterNames =
  ParseFilterParameters ToLower json_Marshal (pre ++ (name2 +:+ "=" +:+ v) :: post) filterNames.
Proof.
  intros H1 H2 Hlow. unfold ParseFilterParameters. rewrite !parse_tokens_app.
  destruct (parse_tokens ToLower filterNames parse_init pre) as [st| | |]; simpl; try done.
  by rewrite (parse_token_same_key filterNames st name1 name2 v).
Qed.

Lemma parse_token_more_names (filterNames filterNames' : list string) (st st' : parse_state)
    (value : string) :
  (∀ key, key ∈ filterNames → key ∈ filterNames') →
  parse_token ToLower filterNames st value = Returns st' →
  parse_token ToLower filterNames' st value = Returns st'.
Proof.
  intros Hsub. rewrite !parse_token_eq. destruct (cut value "=") as [[name v]|]; [|done].
  simpl. destruct (decide (ToLower name ∉ filterNames)) as [|Hin]; [done|].
  apply dec_stable in Hin. rewrite (decide_False (P := ToLower name ∉ filterNames')); auto.
Qed.

Lemma parse_tokens_more_names (filterNames filterNames' filter : list string) : ∀ st st',
  (∀ key, key ∈ filterNames → key ∈ filterNames') →
  parse_tokens ToLower filterNames st filter = Returns st' →
  parse_tokens ToLower filterNames' st filter = Returns st'.
Proof.
  induction filter as [|value filter IH]; intros st st' Hsub; simpl; [done|].
  destruct (parse_token ToLower filterNames st value) as [st1| | |] eqn:Htok; try done.
  rewrite (parse_token_more_names filterNames filterNames' st st1 value Hsub Htok).
  simpl. by apply IH.
Qed.

(** X8. Declaring more filter names does not change the result of an
    input that is accepted: what [ParseFilterParameters] returns for a set
    of declared names it returns for every larger set. *)
Theorem ParseFilterParameters_more_names (filter filterNames filterNames' : list string)
    (r : list string * string) :
  (∀ key, key ∈ filterNames → key ∈ filterNames') →
  ParseFilterParameters ToLower json_Marshal filter filterNames = Returns r →
  ParseFilterParameters ToLower json_Marshal filter filterNames' = Returns r.
Proof.
  intros Hsub. unfold ParseFilterParameters.
  destruct (parse_tokens ToLower filterNames parse_init filter) as [st| | |] eqn:Hrun; try done.
  by rewrite (parse_tokens_more_names filterNames filterNames' filter parse_init st Hsub Hrun).
Qed.

End ParseFilterParameters_more.

Lemma ParseFilterParameters_statuses_valid_witness :
  let filter := ["status=running"; "STATUS=failed"] in
  let names := ["name"; "status"] in
  ParseFilterParameters ascii_ToLower json_Marshal_plain filter names =
  Returns (["running"; "failed"], "") ∧
  Forall (λ v, v ∈ GetRunStatuses true) ["running"; "failed"] ∧
  (["running"; "failed"] ≠ [] → "status" ∈ names).
Proof.
  intros filter names.
  assert (ParseFilterParameters ascii_ToLower json_Marshal_plain filter names =
          Returns (["running"; "failed"], "")) as Hrun by (vm_compute; reflexivity).
  split; [exact Hrun|].
  exact (ParseFilterParameters_statuses_valid ascii_ToLower json_Marshal_plain
           filter names ["running"; "failed"] "" Hrun).
Defined.

Lemma ParseFilterParameters_key_case_witness :
  let names := ["name"; "status"] in
  (Contains "Status" "=" = false ∧ Contains "STATUS" "=" = false ∧
   ascii_ToLower "Status" = ascii_ToLower "STATUS") ∧
  ParseFilterParameters ascii_ToLower json_Marshal_plain
    (["name=foo"] ++ ("Status" +:+ "=" +:+ "running") :: ["status=failed"]) names =
  ParseFilterParameters ascii_ToLower json_Marshal_plain
    (["name=foo"] ++ ("STATUS" +:+ "=" +:+ "running") :: ["status=failed"]) names.
Proof.
  intros names.
  assert (Contains "Status" "=" = false) as H1 by reflexivity.
  assert (Contains "STATUS" "=" = false) as H2 by reflexivity.
  assert (ascii_ToLower "Status" = ascii_ToLower "STATUS") as Hlow by reflexivity.
  split; [by split_and!|].
  exact (ParseFilterParameters_key_case ascii_ToLower json_Marshal_plain names
           ["name=foo"] ["status=failed"] "Status" "STATUS" "running" H1 H2 Hlow).
Defined.

Lemma ParseFilterParameters_more_names_witness :
  let filter := ["status=running"] in
  (∀ key, key ∈ ["status"] → key ∈ ["name"; "status"]) ∧
  ParseFilterParameters ascii_ToLower json_Marshal_plain filter ["status"] =
  Returns (["running"], "") ∧
  ParseFilterParameters ascii_ToLower json_Marshal_plain filter ["name"; "status"] =
  Returns (["running"], "").
Proof.
  intros filter.
  assert (∀ key, key ∈ ["status"] → key ∈ ["name"; "status"]) as Hsub.
  { intros key Hkey. apply elem_of_cons. by right. }
  assert (ParseFilterParameters ascii_ToLower json_Marshal_plain filter ["status"] =
          Returns (["running"], "")) as Hrun by (vm_compute; reflexivity).
  split; [exact Hsub|]. split; [exact Hrun|].
  exact (ParseFilterParameters_more_names ascii_ToLower json_Marshal_plain filter
           ["status"] ["name"; "status"] (["running"], "") Hsub Hrun).
Defined.

(** ** utils.go: more on FormatData *)

Lemma remove_at_sublist {A : Type} (i : nat) (l : list A) :
  take i l ++ drop (S i) l `sublist_of` l.
Proof.
  rewrite <-(take_drop i l) at 3. apply sublist_app; [done|].
  replace (S i) with (i + 1) by lia. rewrite <-drop_drop. apply sublist_drop.
Qed.

Section FormatData_more.
Context {any : Type} (Sprint : any → string) (formatFilters : gmap string string).

Lemma remove_column_panics col (data : list (list any)) :
  Exists (λ r, length r ≤ col) data → remove_column col data = Panics.
Proof.
  induction 1 as [r data Hr|r data _ IH]; simpl; unfold remove_at.
  - by rewrite decide_False by lia.
  - destruct (decide (col < length r)); [|done]. simpl. by rewrite IH.
Qed.

Lemma format_columns_shrinks fuel :
  ∀ col (header : list string) (data : list (list any)) header' data',
  format_columns Sprint formatFilters fuel col header data = Returns (header', data') →
  header' `sublist_of` header ∧ length data' ≤ length data.
Proof.
  induction fuel as [|fuel IH]; intros col header data header' data'; simpl.
  - destruct (decide (col < length header)); [done|]. by intros [= <- <-].
  - destruct (decide (col < length header)); [|by intros [= <- <-]].
    destruct (header !! col) as [name|]; [|done].
    destruct (formatFilters !! name) as [v|].
    + destruct (decide (v ≠ "")); [|apply IH].
      destruct (filter_rows _ _ _ _ _ _) as [data1| | |] eqn:Erows; try done. simpl.
      apply (filter_rows_inv Sprint col v (length data) data []) in Erows as [_ ->].
      intros Hrun. apply IH in Hrun as [? Hlen]. split; [done|].
      simpl in Hlen. pose proof (length_filter (prints_as Sprint col v) data). lia.
    + destruct (remove_column col data) as [data1| | |] eqn:Ecol; try done. simpl.
      apply remove_column_inv in Ecol as [_ ->].
      intros Hrun. apply IH in Hrun as [Hsub Hlen]. split.
      * etrans; [exact Hsub|]. apply remove_at_sublist.
      * by rewrite length_fmap in Hlen.
Qed.

(** X9. [FormatData] only removes: whenever it returns, also for rows
    that are not as long as the header, the header it returns is the given
    header with some columns left out, in the same order, and it returns no
    more rows than it was given. *)
Theorem FormatData_only_removes (header : list string) (data : list (list any))
    (header' : list string) (data' : list (list any)) :
  FormatData Sprint formatFilters data header = Returns (header', data') →
  header' `sublist_of` header ∧ length data' ≤ length data.
Proof.
  unfold FormatData. destruct (decide _); [by intros [= <- <-]|].
  apply format_columns_shrinks.
Qed.

(** X10. With at least one rule, every column of a table that
    [FormatData] returns is named by a rule, and when the rule has a value
    every returned row has a cell in that column that prints as the
    value. *)
Theorem FormatData_result_settled (header : list string) (data : list (list any))
    (header' : list string) (data' : list (list any)) :
  formatFilters ≠ ∅ →
  FormatData Sprint formatFilters data header = Returns (header', data') →
  ∀ i name, header' !! i = Some name →
    ∃ v, formatFilters !! name = Some v ∧
         (v = "" ∨ Forall (λ r, Sprint <$> r !! i = Some v) data').
Proof.
  intros Hne. unfold FormatData. rewrite decide_False by (by rewrite map_size_empty_iff).
  intros Hrun i name Hname.
  apply format_columns_settles in Hrun; [|lia|intros ? ? ?; lia].
  apply (Hrun i name); [|done]. by apply lookup_lt_Some in Hname.
Qed.

(** X11. The tables that [FormatData] leaves as they are. With at least
    one rule, [FormatData] returns the table it was given exactly when
    every column is named by a rule and every row prints, in each column
    whose rule has a value, as that value. The rows need not be as long as
    the header. *)
Theorem FormatData_fixed_points (header : list string) (data : list (list any)) :
  formatFilters ≠ ∅ →
  FormatData Sprint formatFilters data header = Returns (header, data) ↔
  ∀ i name, header !! i = Some name →
    ∃ v, formatFilters !! name = Some v ∧
         (v = "" ∨ Forall (λ r, Sprint <$> r !! i = Some v) data).
Proof.
  intros Hne. split.
  - unfold FormatData. rewrite decide_False by (by rewrite map_size_empty_iff).
    intros Hrun i name Hname.
    apply format_columns_settles in Hrun; [|lia|intros ? ? ?; lia].
    apply (Hrun i name); [|done]. by apply lookup_lt_Some in Hname.
  - intros Hall. unfold FormatData. rewrite decide_False by (by rewrite map_size_empty_iff).
    apply format_columns_settled; [|lia]. intros i name _ Hname. by apply Hall.
Qed.

Lemma format_columns_short_row (kept : list string) :
  ∀ (hd : list string) (name : string) (rest : list string) (data : list (list any)) fuel,
  Forall (λ column, formatFilters !! column = Some "") kept →
  formatFilters !! name = None →
  Exists (λ r, length r ≤ length hd + length kept) data →
  length kept < fuel →
  format_columns Sprint formatFilters fuel (length hd) (hd ++ kept ++ name :: rest) data = Panics.
Proof.
  induction kept as [|column kept IH]; intros hd name rest data fuel Hkept Hname Hshort Hfuel.
  - destruct fuel as [|fuel]; [simpl in Hfuel; lia|]. simpl.
    rewrite decide_True by (rewrite length_app; simpl; lia).
    rewrite list_lookup_middle by done. rewrite Hname.
    rewrite remove_column_panics; [done|].
    eapply Exists_impl; [exact Hshort|]. simpl. lia.
  - apply Forall_cons in Hkept as [Hcolumn Hkept].
    destruct fuel as [|fuel]; [simpl in Hfuel; lia|]. simpl.
    rewrite decide_True by (rewrite length_app; simpl; lia).
    rewrite list_lookup_middle by done. rewrite Hcolumn. simpl.
    replace (hd ++ column :: kept ++ name :: rest)
      with ((hd ++ [column]) ++ kept ++ name :: rest) by (by rewrite <-app_assoc).
    replace (S (length hd)) with (length (hd ++ [column])) by (rewrite length_app; simpl; lia).
    apply IH; [done..| |simpl in Hfuel; lia].
    eapply Exists_impl; [exact Hshort|]. simpl. intros r. rewrite length_app. simpl. lia.
Qed.

(** X12. A row that is too short makes [FormatData] panic. When the
    header starts with columns that are kept for their name alone, followed
    by a column that no rule names, and some row has no cell at the
    position of that column, the removal of the column slices the row out
    of range. *)
Theorem FormatData_short_row_panics (kept : list string) (name : string) (rest : list string)
    (data : list (list any)) :
  Forall (λ column, formatFilters !! column = Some "") kept →
  formatFilters !! name = None →
  formatFilters ≠ ∅ →
  Exists (λ r, length r ≤ length kept) data →
  FormatData Sprint formatFilters data (kept ++ name :: rest) = Panics.
Proof.
  intros Hkept Hname Hne Hshort. unfold FormatData.
  rewrite decide_False by (by rewrite map_size_empty_iff).
  apply (format_columns_short_row kept [] name rest data); [done..|].
  rewrite length_app. simpl. lia.
Qed.

End FormatData_more.

Lemma FormatData_only_removes_witness :
  let rules : gmap string string := {[ "NAME" := ""; "STATUS" := "failed" ]} in
  let header := ["ID"; "NAME"; "STATUS"] in
  let data := [[CInt 1; CStr "x"; CStr "failed"]; [CInt 2; CStr "y"; CStr "finished"]] in
  FormatData Sprint_cell rules data header =
  Returns (["NAME"; "STATUS"], [[CStr "x"; CStr "failed"]]) ∧
  ["NAME"; "STATUS"] `sublist_of` header ∧ length [[CStr "x"; CStr "failed"]] ≤ length data.
Proof.
  intros rules header data.
  assert (FormatData Sprint_cell rules data header =
          Returns (["NAME"; "STATUS"], [[CStr "x"; CStr "failed"]])) as Hrun
    by (vm_compute; reflexivity).
  split; [exact Hrun|].
  exact (FormatData_only_removes Sprint_cell rules header data _ _ Hrun).
Defined.

Lemma FormatData_result_settled_witness :
  let rules : gmap string string := {[ "NAME" := ""; "STATUS" := "failed" ]} in
  let header := ["ID"; "NAME"; "STATUS"] in
  let data := [[CInt 1; CStr "x"; CStr "failed"]; [CInt 2; CStr "y"; CStr "finished"]] in
  let header' := ["NAME"; "STATUS"] in
  let data' := [[CStr "x"; CStr "failed"]] in
  rules ≠ ∅ ∧
  FormatData Sprint_cell rules data header = Returns (header', data') ∧
  ∀ i name, header' !! i = Some name →
    ∃ v, rules !! name = Some v ∧
         (v = "" ∨ Forall (λ r, Sprint_cell <$> r !! i = Some v) data').
Proof.
  intros rules header data header' data'.
  assert (rules ≠ ∅) as Hne by (apply insert_non_empty).
  assert (FormatData Sprint_cell rules data header = Returns (header', data')) as Hrun
    by (vm_compute; reflexivity).
  split; [exact Hne|]. split; [exact Hrun|].
  exact (FormatData_result_settled Sprint_cell rules header data header' data' Hne Hrun).
Defined.

Lemma FormatData_fixed_points_witness :
  let rules : gmap string string := {[ "NAME" := ""; "STATUS" := "failed" ]} in
  let header := ["NAME"; "STATUS"] in
  let data := [[CStr "x"; CStr "failed"]; [CStr "z"; CStr "failed"; CInt 3]] in
  rules ≠ ∅ ∧
  FormatData Sprint_cell rules data header = Returns (header, data) ∧
  ∀ i name, header !! i = Some name →
    ∃ v, rules !! name = Some v ∧
         (v = "" ∨ Forall (λ r, Sprint_cell <$> r !! i = Some v) data).
Proof.
  intros rules header data.
  assert (rules ≠ ∅) as Hne by (apply insert_non_empty).
  assert (FormatData Sprint_cell rules data header = Returns (header, data)) as Hrun
    by (vm_compute; reflexivity).
  split; [exact Hne|]. split; [exact Hrun|].
  exact (proj1 (FormatData_fixed_points Sprint_cell rules header data Hne) Hrun).
Defined.

Lemma FormatData_short_row_panics_witness :
  let rules : gmap string string := {[ "NAME" := "" ]} in
  let data := [[CStr "x"; CStr "failed"]; [CStr "y"]] in
  (Forall (λ column, rules !! column = Some "") ["NAME"] ∧ rules !! "STATUS" = None ∧
   rules ≠ ∅ ∧ Exists (λ r, length r ≤ length ["NAME"]) data) ∧
  FormatData Sprint_cell rules data (["NAME"] ++ "STATUS" :: []) = Panics.
Proof.
  intros rules data.
  assert (Forall (λ column, rules !! column = Some "") ["NAME"]) as Hkept
    by (repeat constructor).
  assert (rules !! "STATUS" = None) as Hname by reflexivity.
  assert (rules ≠ ∅) as Hne by (apply insert_non_empty).
  assert (Exists (λ r, length r ≤ length ["NAME"]) data) as Hshort
    by (apply Exists_cons_tl, Exists_cons_hd; simpl; lia).
  split; [by split_and!|].
  exact (FormatData_short_row_panics Sprint_cell rules ["NAME"] "STATUS" [] data
           Hkept Hname Hne Hshort).
Defined.

(** ** logs.go: more on the job-log filter and the display *)

Section Logs_more.
Context (ToLower : string → string) (ReanaComputeBackends : gmap string string)
  (LeadingMark : string).

(** X13. Filtering twice is filtering once: [filterJobLogs] on the map
    that it has left, with the same filters, removes nothing more. *)
Theorem filterJobLogs_idempotent (jobLogs : gmap string jobLogItem) (filters : Filters) :
  filterJobLogs ToLower ReanaComputeBackends
    (filterJobLogs ToLower ReanaComputeBackends jobLogs filters).1 filters =
  filterJobLogs ToLower ReanaComputeBackends jobLogs filters.
Proof.
  apply injective_projections; [|done]. apply map_eq. intros k.
  rewrite !filterJobLogs_lookup.
  destruct (jobLogs !! k) as [j|]; [|done].
  destruct (decide (rejected _ _ filters j)) as [|Hno]; [done|]. by rewrite decide_False.
Qed.

Lemma rejected_same_keys (f f' : Filters) (j : jobLogItem) :
  singleFilters f = singleFilters f' →
  (∀ key, key ∈ SingleFilterKeys f ↔ key ∈ SingleFilterKeys f') →
  rejected ToLower ReanaComputeBackends f j ↔ rejected ToLower ReanaComputeBackends f' j.
Proof.
  intros Hvalues Hkeys. rewrite !rejected_iff.
  assert (∀ key, filter_value ToLower ReanaComputeBackends f key =
                 filter_value ToLower ReanaComputeBackends f' key) as Hv.
  { intros key. unfold filter_value, GetSingle. by rewrite Hvalues. }
  split; intros (key & Hkey & Hreject); exists key.
  - rewrite <-Hv. split; [by apply Hkeys|done].
  - rewrite Hv. split; [by apply Hkeys|done].
Qed.

(** X14. The result of [filterJobLogs] does not depend on the order or
    the repetition of the single-valued filter keys, nor on the
    multi-valued filters: filters with the same single values and the same
    set of single-valued keys leave the same jobs. The loop stops at the
    first key that rejects a job, but any rejecting key removes it. *)
Theorem filterJobLogs_key_order (jobLogs : gmap string jobLogItem) (f f' : Filters) :
  singleFilters f = singleFilters f' →
  (∀ key, key ∈ SingleFilterKeys f ↔ key ∈ SingleFilterKeys f') →
  filterJobLogs ToLower ReanaComputeBackends jobLogs f =
  filterJobLogs ToLower ReanaComputeBackends jobLogs f'.
Proof.
  intros Hvalues Hkeys. apply injective_projections; [|done]. apply map_eq. intros k.
  rewrite !filterJobLogs_lookup. destruct (jobLogs !! k) as [j|]; [|done].
  pose proof (rejected_same_keys f f' j Hvalues Hkeys).
  destruct (decide (rejected _ _ f j)); destruct (decide (rejected _ _ f' j)); tauto || done.
Qed.

(** X15. When no single-valued key has a value to compare with (no such
    filter given, or only a [compute_backend] filter whose value is no
    entry of the backend table), [filterJobLogs] leaves the job logs as
    they are. *)
Theorem filterJobLogs_no_values (jobLogs : gmap string jobLogItem) (filters : Filters) :
  (∀ key, key ∈ SingleFilterKeys filters →
          filter_value ToLower ReanaComputeBackends filters key = "") →
  filterJobLogs ToLower ReanaComputeBackends jobLogs filters = (jobLogs, None).
Proof.
  intros Hnone. apply injective_projections; [|done]. cbn [fst]. apply map_eq. intros k.
  rewrite filterJobLogs_lookup. destruct (jobLogs !! k) as [j|]; [|done].
  rewrite decide_False; [done|]. apply not_rejected_iff. auto.
Qed.

Lemma field_unknown (j : jobLogItem) (key : string) :
  key ∉ jobLogItem_properties → field j key = "".
Proof.
  intros Hkey. unfold field, jobLogItem_json.
  by rewrite (not_elem_of_list_to_map_1 _ key).
Qed.

(** X16. A single-valued filter key that is no JSON property of a job
    and has a value to compare with removes every job: the job's field of
    that name reads as the empty string, which differs from the value. *)
Theorem filterJobLogs_unknown_property (jobLogs : gmap string jobLogItem) (filters : Filters)
    (key : string) :
  key ∈ SingleFilterKeys filters →
  key ∉ jobLogItem_properties →
  filter_value ToLower ReanaComputeBackends filters key ≠ "" →
  filterJobLogs ToLower ReanaComputeBackends jobLogs filters = (∅, None).
Proof.
  intros Hkey Hunknown Hvalue. apply injective_projections; [|done]. cbn [fst].
  apply map_eq. intros k.
  rewrite filterJobLogs_lookup, lookup_empty. destruct (jobLogs !! k) as [j|]; [|done].
  rewrite decide_True; [done|]. apply rejected_iff. exists key.
  split_and!; [done..|]. rewrite field_unknown by done. congruence.
Qed.

(** X17. What is shown of a returned job. Its header line names the job
    by its job name, or by its ID when the name is empty, in bold and in
    the colour of its status. A job without logs gets the message that the
    step emitted no logs; a job with logs gets them printed after an empty
    line. *)
Theorem displayHumanFriendlyLogs_job (l : logs) (steps : list string) (id : string)
    (item : jobLogItem) :
  JobLogs l !! id = Some item →
  PrintColorable (LeadingMark +:+ " Step: " +:+ jobNameOrId id item +:+ newline) Stdout
    [Bold; JobStatusToColor (Status item)]
    ∈ displayHumanFriendlyLogs LeadingMark l steps ∧
  (Logs item = "" →
   DisplayMessage ("Step " +:+ jobNameOrId id item +:+ " emitted no logs.") Info false Stdout
     ∈ displayHumanFriendlyLogs LeadingMark l steps) ∧
  (Logs item ≠ "" →
   Println (newline +:+ Logs item) ∈ displayHumanFriendlyLogs LeadingMark l steps).
Proof.
  intros Hitem.
  pose proof (displayJob_displayed LeadingMark l steps id item Hitem) as Hsub.
  split_and!; [|intros Hlogs..]; apply Hsub; unfold displayJob; rewrite !elem_of_app.
  - left. by apply list_elem_of_singleton.
  - do 9 right. rewrite (decide_False (P := Logs item ≠ "")) by (intros Hn; by apply Hn).
    by apply list_elem_of_singleton.
  - do 9 right. rewrite (decide_True (P := Logs item ≠ "")) by done. unfold displayLogItem.
    rewrite decide_False by (by destruct (Logs item)).
    apply elem_of_cons. right. by apply list_elem_of_singleton.
Qed.

(** X18. Filters and requested steps together, without [--json]. When
    every returned job with the name of a requested step is rejected by the
    filters, the part of [run] that follows the decoding of the response,
    run without [--json], reports that step among the steps whose logs were
    not found, on standard error, although the server returned the job; it
    still returns no error. *)
Theorem run_display_rejected_step (DisplayJsonOutput : logs → list event * option error)
    (l : logs) (filters : Filters) (steps : list string) (step : string) :
  step ∈ steps →
  (∀ id item, JobLogs l !! id = Some item → JobName item = step →
              rejected ToLower ReanaComputeBackends filters item) →
  ∃ out missing,
    run_display ToLower ReanaComputeBackends LeadingMark DisplayJsonOutput false
      l filters steps = (out, None) ∧
    step ∈ missing ∧
    DisplayMessage (msg_steps_not_found missing) Error false Stderr ∈ out.
Proof.
  intros Hstep Hrejected.
  set (l' := {| WorkflowLogs := WorkflowLogs l;
                JobLogs := (filterJobLogs ToLower ReanaComputeBackends (JobLogs l) filters).1;
                EngineSpecific := EngineSpecific l |}).
  exists (displayHumanFriendlyLogs LeadingMark l' steps), (missingStepNames l' steps).
  assert (step ∈ missingStepNames l' steps) as Hmissing.
  { apply (elem_of_missingStepNames ToLower LeadingMark). split; [done|].
    intros (id & item & Hitem & Hname). unfold l' in Hitem. cbn [JobLogs] in Hitem.
    rewrite filterJobLogs_lookup in Hitem.
    destruct (JobLogs l !! id) as [j|] eqn:Hj; [|done]. simpl in Hitem.
    destruct (decide (rejected _ _ filters j)) as [|Hno]; [done|].
    injection Hitem as ->. apply Hno. by apply (Hrejected id). }
  split_and!; [done|done|].
  apply (error_messages_displayed ToLower LeadingMark); [done|]. split; [|done].
  intros Hnil. rewrite Hnil in Hmissing. by apply elem_of_nil in Hmissing.
Qed.

End Logs_more.

Lemma filterJobLogs_key_order_witness :
  let jobLogs : gmap string jobLogItem := {[ "job-1" := example_job ]} in
  let f := example_filters "htcondor" in
  let f' := example_filters_reordered "htcondor" in
  (singleFilters f = singleFilters f' ∧
   ∀ key, key ∈ SingleFilterKeys f ↔ key ∈ SingleFilterKeys f') ∧
  filterJobLogs ascii_ToLower example_backends jobLogs f =
  filterJobLogs ascii_ToLower example_backends jobLogs f'.
Proof.
  intros jobLogs f f'.
  assert (singleFilters f = singleFilters f') as Hvalues by reflexivity.
  assert (∀ key, key ∈ SingleFilterKeys f ↔ key ∈ SingleFilterKeys f') as Hkeys.
  { intros key. simpl. rewrite !elem_of_cons. tauto. }
  split; [by split|].
  exact (filterJobLogs_key_order ascii_ToLower example_backends jobLogs f f' Hvalues Hkeys).
Defined.

Lemma filterJobLogs_no_values_witness :
  let jobLogs : gmap string jobLogItem := {[ "job-1" := example_job ]} in
  let filters := example_filters "lsf" in
  (∀ key, key ∈ SingleFilterKeys filters →
          filter_value ascii_ToLower example_backends filters key = "") ∧
  filterJobLogs ascii_ToLower example_backends jobLogs filters = (jobLogs, None).
Proof.
  intros jobLogs filters.
  assert (∀ key, key ∈ SingleFilterKeys filters →
                 filter_value ascii_ToLower example_backends filters key = "") as Hnone.
  { intros key Hkey. simpl in Hkey. rewrite !elem_of_cons in Hkey.
    destruct Hkey as [->|[->|[->|Hkey]]]; [reflexivity..|by apply elem_of_nil in Hkey]. }
  split; [exact Hnone|].
  exact (filterJobLogs_no_values ascii_ToLower example_backends jobLogs filters Hnone).
Defined.

Lemma filterJobLogs_unknown_property_witness :
  let jobLogs : gmap string jobLogItem := {[ "job-1" := example_job ]} in
  let filters := example_filters_unknown in
  ("owner" ∈ SingleFilterKeys filters ∧ ("owner" ∉ jobLogItem_properties) ∧
   filter_value ascii_ToLower example_backends filters "owner" ≠ "") ∧
  filterJobLogs ascii_ToLower example_backends jobLogs filters = (∅, None).
Proof.
  intros jobLogs filters.
  assert ("owner" ∈ SingleFilterKeys filters) as Hkey by (simpl; set_solver).
  assert ("owner" ∉ jobLogItem_properties) as Hunknown by compute_done.
  assert (filter_value ascii_ToLower example_backends filters "owner" ≠ "") as Hvalue
    by discriminate.
  split; [by split_and!|].
  exact (filterJobLogs_unknown_property ascii_ToLower example_backends jobLogs filters
           "owner" Hkey Hunknown Hvalue).
Defined.

Lemma displayHumanFriendlyLogs_job_witness :
  let out := displayHumanFriendlyLogs "==>" example_logs [] in
  JobLogs example_logs !! "job-1" = Some example_job ∧
  PrintColorable ("==>" +:+ " Step: " +:+ jobNameOrId "job-1" example_job +:+ newline) Stdout
    [Bold; JobStatusToColor (Status example_job)] ∈ out ∧
  (Logs example_job = "" →
   DisplayMessage ("Step " +:+ jobNameOrId "job-1" example_job +:+ " emitted no logs.")
     Info false Stdout ∈ out) ∧
  (Logs example_job ≠ "" → Println (newline +:+ Logs example_job) ∈ out).
Proof.
  intros out.
  assert (JobLogs example_logs !! "job-1" = Some example_job) as Hitem by reflexivity.
  split; [exact Hitem|].
  exact (displayHumanFriendlyLogs_job "==>" example_logs [] "job-1" example_job Hitem).
Defined.

Lemma run_display_rejected_step_witness :
  let filters := example_filters "htcondor" in
  let steps := ["fit"] in
  ("fit" ∈ steps ∧
   ∀ id item, JobLogs example_logs !! id = Some item → JobName item = "fit" →
              rejected ascii_ToLower example_backends filters item) ∧
  ∃ out missing,
    run_display ascii_ToLower example_backends "==>" no_DisplayJsonOutput false
      example_logs filters steps = (out, None) ∧
    "fit" ∈ missing ∧
    DisplayMessage (msg_steps_not_found missing) Error false Stderr ∈ out.
Proof.
  intros filters steps.
  assert ("fit" ∈ steps) as Hstep by (apply list_elem_of_singleton; reflexivity).
  assert (∀ id item, JobLogs example_logs !! id = Some item → JobName item = "fit" →
                     rejected ascii_ToLower example_backends filters item) as Hrejected.
  { intros id item Hitem _. simpl in Hitem.
    apply lookup_singleton_Some in Hitem as [_ <-].
    apply Exists_cons_hd. split; vm_compute; discriminate. }
  split; [by split|].
  exact (run_display_rejected_step ascii_ToLower example_backends "==>"
           no_DisplayJsonOutput example_logs
           filters steps "fit" Hstep Hrejected).
Defined.

(** ** list.go: the table of workflows *)

Section displayListPayload_facts.
Import list_go.

Lemma list_row_showable (w : workflow) :
  showable w →
  ∃ name runNumber p,
    GetWorkflowNameAndRunNumber (Name w) = Returns (name, runNumber) ∧
    Progress w = Some p ∧
    list_row w = Returns [CStr name; CStr runNumber; CStr (Created w);
                          CStr (displayOptionalField (RunStartedAt p));
                          CStr (displayOptionalField (RunFinishedAt p));
                          CStr (Status w)].
Proof.
  intros [Hdot [p Hp]]. apply Contains_cut in Hdot as [[name runNumber] Hcut].
  exists name, runNumber, p. unfold GetWorkflowNameAndRunNumber, list_row, SplitN2.
  by rewrite Hcut, Hp.
Qed.

Lemma list_row_not_showable (w : workflow) :
  ¬ showable w → list_row w = Panics.
Proof.
  intros Hno. unfold list_row, SplitN2.
  destruct (cut (Name w) ".") as [[name runNumber]|] eqn:Hcut; [|done].
  destruct (Progress w) as [p|] eqn:Hp; [|done].
  destruct Hno. split; [|by rewrite Hp]. apply Contains_cut. by rewrite Hcut.
Qed.

Lemma list_rows_spec (items : list workflow) :
  (Forall showable items →
   ∃ rows, list_rows items = Returns rows ∧
     Forall2 (λ w row, ∃ name runNumber,
                GetWorkflowNameAndRunNumber (Name w) = Returns (name, runNumber) ∧
                row !! 0 = Some (CStr name) ∧ row !! 1 = Some (CStr runNumber) ∧
                length row = 6) items rows) ∧
  (¬ Forall showable items → list_rows items = Panics).
Proof.
  induction items as [|w items [IH1 IH2]]; simpl.
  - split; [by eexists|]. intros []. constructor.
  - split.
    + intros [Hw Hitems]%Forall_cons. destruct (IH1 Hitems) as (rows & -> & Hrows).
      destruct (list_row_showable w Hw) as (name & runNumber & p & Hname & _ & Hrow).
      rewrite Hrow. simpl. eexists. split; [done|]. constructor; [|done].
      by exists name, runNumber.
    + intros Hno. destruct (decide (showable w)) as [Hw|Hw].
      * destruct (list_row_showable w Hw) as (? & ? & ? & _ & _ & ->). simpl.
        rewrite IH2; [done|]. intros Hitems. apply Hno. by constructor.
      * by rewrite list_row_not_showable.
Qed.

(** X19. [displayListPayload] of list.go indexes the split workflow name
    and dereferences the progress without a test. When every workflow has
    a dot in its name and a progress record, it displays one table with the
    six column titles and one row of six cells per workflow, in the order
    of the payload, whose first two cells are the name and the run number
    that [GetWorkflowNameAndRunNumber] gives. When some workflow has no dot
    in its name or no progress record, it panics and displays nothing. *)
Theorem displayListPayload_spec (Items : list workflow) :
  (Forall showable Items →
   ∃ rows,
     displayListPayload Items =
     Returns [DisplayTable ["NAME"; "RUN_NUMBER"; "CREATED"; "STARTED"; "ENDED"; "STATUS"]
                rows Stdout] ∧
     Forall2 (λ w row, ∃ name runNumber,
                GetWorkflowNameAndRunNumber (Name w) = Returns (name, runNumber) ∧
                row !! 0 = Some (CStr name) ∧ row !! 1 = Some (CStr runNumber) ∧
                length row = 6) Items rows) ∧
  (¬ Forall showable Items → displayListPayload Items = Panics).
Proof.
  destruct (list_rows_spec Items) as [Hok Hpanic]. unfold displayListPayload. split.
  - intros Hall. destruct (Hok Hall) as (rows & -> & Hrows). simpl. by exists rows.
  - intros Hno. by rewrite Hpanic.
Qed.

End displayListPayload_facts.

(** ** The secrets parser *)

Section parseSecrets_facts.
Import secrets_add.
Context (SplitKeyValue : string → option (string * string))
  (EncodeToString : string → string)
  (ReadFile : string → string + string)
  (Base : string → string).

Lemma secrets_ok_insert (st : secrets_state) (key type value : string) :
  type = "env" ∨ type = "file" →
  secrets_ok st →
  secrets_ok (<[key := {| Name := key; Type_ := type; Value := value |}]> st.1, st.2 ++ [key]).
Proof.
  intros Htype [Hnames Hdom]. split; simpl.
  - intros k secret. destruct (decide (key = k)) as [->|Hne].
    + rewrite lookup_insert_eq. by intros [= <-].
    + rewrite lookup_insert_ne by done. apply Hnames.
  - intros k. rewrite elem_of_app, list_elem_of_singleton, <-Hdom.
    destruct (decide (key = k)) as [->|Hne].
    + rewrite lookup_insert_eq. split; [by right|by eauto].
    + rewrite lookup_insert_ne by done. split; [by left|]. intros [|]; [done|congruence].
Qed.

Lemma secrets_ok_empty : secrets_ok (∅, []).
Proof.
  split; simpl.
  - intros key secret. by rewrite lookup_empty.
  - intros key. rewrite lookup_empty, elem_of_nil. split; [by intros [? ?]|done].
Qed.

Lemma parse_env_inv (envSecrets : list string) : ∀ st st',
  parse_env SplitKeyValue EncodeToString st envSecrets = inr st' →
  Forall (λ e, is_Some (SplitKeyValue e)) envSecrets ∧
  st'.2 = st.2 ++ omap (λ e, fst <$> SplitKeyValue e) envSecrets ∧
  (secrets_ok st → secrets_ok st').
Proof.
  induction envSecrets as [|e envSecrets IH]; intros st st'; simpl.
  - intros [= <-]. rewrite app_nil_r. by split_and!.
  - destruct (SplitKeyValue e) as [[key value]|] eqn:He; [|done].
    intros Hrun. apply IH in Hrun as (Hall & Hnames & Hok). simpl in *. split_and!.
    + constructor; [by rewrite He|done].
    + by rewrite Hnames, <-app_assoc.
    + intros Hst. apply Hok. apply secrets_ok_insert; [by left|done].
Qed.

Lemma parse_env_returns (envSecrets : list string) : ∀ st,
  Forall (λ e, is_Some (SplitKeyValue e)) envSecrets →
  ∃ st', parse_env SplitKeyValue EncodeToString st envSecrets = inr st'.
Proof.
  induction envSecrets as [|e envSecrets IH]; intros st; simpl; [by eauto|].
  intros [[[key value] ->] Hrest]%Forall_cons. by apply IH.
Qed.

Lemma parse_env_stops (pre post : list string) (bad : string) : ∀ st,
  Forall (λ e, is_Some (SplitKeyValue e)) pre →
  SplitKeyValue bad = None →
  parse_env SplitKeyValue EncodeToString st (pre ++ bad :: post) = inl (msg_invalid_option bad).
Proof.
  induction pre as [|e pre IH]; intros st; simpl.
  - by intros _ ->.
  - intros [[[key value] ->] Hrest]%Forall_cons Hbad. by apply IH.
Qed.

Lemma parse_files_inv (fileSecrets : list string) : ∀ st st',
  parse_files EncodeToString ReadFile Base st fileSecrets = inr st' →
  Forall (λ f, ∃ data, ReadFile f = inl data) fileSecrets ∧
  st'.2 = st.2 ++ (Base <$> fileSecrets) ∧
  (secrets_ok st → secrets_ok st') ∧
  (∀ key secret, st.1 !! key = Some secret → Type_ secret = "file" →
     ∃ secret', st'.1 !! key = Some secret' ∧ Type_ secret' = "file") ∧
  (∀ f, f ∈ fileSecrets → ∃ secret, st'.1 !! Base f = Some secret ∧ Type_ secret = "file").
Proof.
  induction fileSecrets as [|f fileSecrets IH]; intros st st'; simpl.
  - intros [= <-]. rewrite app_nil_r. split_and!; [done|done|done|by eauto|].
    intros f Hf. by apply elem_of_nil in Hf.
  - destruct (ReadFile f) as [data|err] eqn:Hf; [|done].
    intros Hrun. apply IH in Hrun as (Hall & Hnames & Hok & Hkeep & Hfiles). simpl in *.
    assert (∃ secret', st'.1 !! Base f = Some secret' ∧ Type_ secret' = "file") as Hhere.
    { eapply Hkeep; [apply lookup_insert_eq|done]. }
    split_and!.
    + constructor; [by eauto|done].
    + by rewrite Hnames, <-app_assoc.
    + intros Hst. apply Hok. apply secrets_ok_insert; [by right|done].
    + intros key secret Hkey Htype. destruct (decide (Base f = key)) as [<-|Hne]; [done|].
      eapply Hkeep; [|exact Htype]. by rewrite lookup_insert_ne.
    + intros f' [->|Hf']%elem_of_cons; [done|]. by apply Hfiles.
Qed.

Lemma parse_files_returns (fileSecrets : list string) : ∀ st,
  Forall (λ f, ∃ data, ReadFile f = inl data) fileSecrets →
  ∃ st', parse_files EncodeToString ReadFile Base st fileSecrets = inr st'.
Proof.
  induction fileSecrets as [|f fileSecrets IH]; intros st; simpl; [by eauto|].
  intros [[data ->] Hrest]%Forall_cons. by apply IH.
Qed.

Lemma parse_files_stops (pre post : list string) (bad err : string) : ∀ st,
  Forall (λ f, ∃ data, ReadFile f = inl data) pre →
  ReadFile bad = inr err →
  parse_files EncodeToString ReadFile Base st (pre ++ bad :: post) = inl (msg_file_error bad err).
Proof.
  induction pre as [|f pre IH]; intros st; simpl.
  - by intros _ ->.
  - intros [[data ->] Hrest]%Forall_cons Hbad. by apply IH.
Qed.

(** X20. [parseSecrets] returns secrets exactly when every literal splits
    into a key and a value and every file can be read; otherwise it returns
    an error. *)
Theorem parseSecrets_succeeds_iff (envSecrets fileSecrets : list string) :
  (∃ st, parseSecrets SplitKeyValue EncodeToString ReadFile Base envSecrets fileSecrets = inr st) ↔
  Forall (λ e, is_Some (SplitKeyValue e)) envSecrets ∧
  Forall (λ f, ∃ data, ReadFile f = inl data) fileSecrets.
Proof.
  unfold parseSecrets. split.
  - intros [st Hrun].
    destruct (parse_env _ _ _ _) as [err|st0] eqn:Henv; [done|].
    apply parse_env_inv in Henv as (? & _ & _).
    apply parse_files_inv in Hrun as (? & _). done.
  - intros [Henv Hfiles]. destruct (parse_env_returns envSecrets (∅, []) Henv) as [st0 ->].
    by apply parse_files_returns.
Qed.

(** X21. The names that [parseSecrets] returns are the keys of the
    literals, in order, followed by the base names of the files, in order:
    one name per argument, repeated when two arguments give the same name.
    The map is keyed by the name of its secret, each of type [env] or
    [file], and its keys are exactly the returned names. *)
Theorem parseSecrets_names (envSecrets fileSecrets : list string) (st : secrets_state) :
  parseSecrets SplitKeyValue EncodeToString ReadFile Base envSecrets fileSecrets = inr st →
  st.2 = omap (λ e, fst <$> SplitKeyValue e) envSecrets ++ (Base <$> fileSecrets) ∧
  length st.2 = length envSecrets + length fileSecrets ∧
  secrets_ok st.
Proof.
  unfold parseSecrets. destruct (parse_env _ _ _ _) as [err|st0] eqn:Henv; [done|].
  intros Hfiles. apply parse_env_inv in Henv as (Hall & Hnames0 & Hok0).
  apply parse_files_inv in Hfiles as (_ & Hnames & Hok & _). simpl in Hnames0.
  assert (st.2 = omap (λ e, fst <$> SplitKeyValue e) envSecrets ++ (Base <$> fileSecrets))
    as Hst by (by rewrite Hnames, Hnames0).
  split_and!; [done| |].
  - rewrite Hst, length_app, length_fmap. f_equal.
    clear -Hall. induction Hall as [|e envSecrets [[key value] He] _ IH]; [done|].
    csimpl. rewrite He. csimpl. by f_equal.
  - apply Hok, Hok0, secrets_ok_empty.
Qed.

(** X22. Files are read after the literals, so a file wins: the secret
    stored under the base name of a file argument is of type [file], also
    when a literal has that name as its key. *)
Theorem parseSecrets_file_wins (envSecrets fileSecrets : list string) (st : secrets_state)
    (filePath : string) :
  parseSecrets SplitKeyValue EncodeToString ReadFile Base envSecrets fileSecrets = inr st →
  filePath ∈ fileSecrets →
  ∃ secret, st.1 !! Base filePath = Some secret ∧
            Name secret = Base filePath ∧ Type_ secret = "file".
Proof.
  unfold parseSecrets. destruct (parse_env _ _ _ _) as [err|st0] eqn:Henv; [done|].
  intros Hfiles Hin. apply parse_env_inv in Henv as (_ & _ & Hok0).
  apply parse_files_inv in Hfiles as (_ & _ & Hok & _ & Hfile).
  destruct (Hfile filePath Hin) as (secret & Hsecret & Htype). exists secret.
  split_and!; [done| |done].
  assert (secrets_ok st) as [Hnames _] by apply Hok, Hok0, secrets_ok_empty.
  by destruct (Hnames _ _ Hsecret).
Qed.

(** X23. The first literal that does not split makes [parseSecrets]
    return the error that quotes that literal, whatever follows it and
    whatever the files: no file is read before the literals are parsed. *)
Theorem parseSecrets_first_invalid_option (pre post fileSecrets : list string) (bad : string) :
  Forall (λ e, is_Some (SplitKeyValue e)) pre →
  SplitKeyValue bad = None →
  parseSecrets SplitKeyValue EncodeToString ReadFile Base (pre ++ bad :: post) fileSecrets =
  inl (msg_invalid_option bad).
Proof.
  intros Hpre Hbad. unfold parseSecrets. by rewrite parse_env_stops.
Qed.

(** X24. When every literal splits, the first file that cannot be read
    makes [parseSecrets] return the error that names the file and carries
    the message of the read error; the secrets collected so far are
    dropped. *)
Theorem parseSecrets_first_unreadable_file (envSecrets pre post : list string)
    (bad err : string) :
  Forall (λ e, is_Some (SplitKeyValue e)) envSecrets →
  Forall (λ f, ∃ data, ReadFile f = inl data) pre →
  ReadFile bad = inr err →
  parseSecrets SplitKeyValue EncodeToString ReadFile Base envSecrets (pre ++ bad :: post) =
  inl (msg_file_error bad err).
Proof.
  intros Henv Hpre Hbad. unfold parseSecrets.
  destruct (parse_env_returns envSecrets (∅, []) Henv) as [st0 ->].
  by apply parse_files_stops.
Qed.

End parseSecrets_facts.

Lemma parseSecrets_names_witness :
  let envSecrets := ["PASSWORD=secret"; "cert.pem=inline"] in
  let fileSecrets := ["/home/user/cert.pem"] in
  ∃ st,
    secrets_add.parseSecrets example_SplitKeyValue example_EncodeToString example_ReadFile
      example_Base envSecrets fileSecrets = inr st ∧
    st.2 = ["PASSWORD"; "cert.pem"; "cert.pem"] ∧
    st.2 = omap (λ e, fst <$> example_SplitKeyValue e) envSecrets ++
           (example_Base <$> fileSecrets) ∧
    length st.2 = length envSecrets + length fileSecrets ∧
    secrets_add.secrets_ok st.
Proof.
  intros envSecrets fileSecrets.
  destruct (secrets_add.parseSecrets example_SplitKeyValue example_EncodeToString
              example_ReadFile example_Base envSecrets fileSecrets) as [err|st] eqn:Hrun;
    [vm_compute in Hrun; discriminate|].
  exists st. split; [reflexivity|].
  split; [vm_compute in Hrun; by injection Hrun as <-|].
  exact (parseSecrets_names example_SplitKeyValue example_EncodeToString example_ReadFile
           example_Base envSecrets fileSecrets st Hrun).
Defined.

Lemma parseSecrets_file_wins_witness :
  let envSecrets := ["PASSWORD=secret"; "cert.pem=inline"] in
  let fileSecrets := ["/home/user/cert.pem"] in
  ∃ st,
    secrets_add.parseSecrets example_SplitKeyValue example_EncodeToString example_ReadFile
      example_Base envSecrets fileSecrets = inr st ∧
    "/home/user/cert.pem" ∈ fileSecrets ∧
    ∃ secret, st.1 !! example_Base "/home/user/cert.pem" = Some secret ∧
              secrets_add.Name secret = example_Base "/home/user/cert.pem" ∧
              secrets_add.Type_ secret = "file".
Proof.
  intros envSecrets fileSecrets.
  destruct (secrets_add.parseSecrets example_SplitKeyValue example_EncodeToString
              example_ReadFile example_Base envSecrets fileSecrets) as [err|st] eqn:Hrun;
    [vm_compute in Hrun; discriminate|].
  assert ("/home/user/cert.pem" ∈ fileSecrets) as Hin
    by (apply list_elem_of_singleton; reflexivity).
  exists st. split; [reflexivity|]. split; [exact Hin|].
  exact (parseSecrets_file_wins example_SplitKeyValue example_EncodeToString example_ReadFile
           example_Base envSecrets fileSecrets st "/home/user/cert.pem" Hrun Hin).
Defined.

Lemma parseSecrets_first_invalid_option_witness :
  (Forall (λ e, is_Some (example_SplitKeyValue e)) ["PASSWORD=secret"] ∧
   example_SplitKeyValue "TOKEN" = None) ∧
  secrets_add.parseSecrets example_SplitKeyValue example_EncodeToString example_ReadFile
    example_Base (["PASSWORD=secret"] ++ "TOKEN" :: ["USER=john"]) ["/nowhere"] =
  inl (secrets_add.msg_invalid_option "TOKEN").
Proof.
  assert (Forall (λ e, is_Some (example_SplitKeyValue e)) ["PASSWORD=secret"]) as Hpre
    by (constructor; [by eexists|constructor]).
  assert (example_SplitKeyValue "TOKEN" = None) as Hbad by reflexivity.
  split; [by split|].
  exact (parseSecrets_first_invalid_option example_SplitKeyValue example_EncodeToString
           example_ReadFile example_Base ["PASSWORD=secret"] ["USER=john"] ["/nowhere"]
           "TOKEN" Hpre Hbad).
Defined.

Lemma parseSecrets_first_unreadable_file_witness :
  let err := "open /nowhere: no such file or directory" in
  (Forall (λ e, is_Some (example_SplitKeyValue e)) ["PASSWORD=secret"] ∧
   Forall (λ f, ∃ data, example_ReadFile f = inl data) ["/home/user/cert.pem"] ∧
   example_ReadFile "/nowhere" = inr err) ∧
  secrets_add.parseSecrets example_SplitKeyValue example_EncodeToString example_ReadFile
    example_Base ["PASSWORD=secret"] (["/home/user/cert.pem"] ++ "/nowhere" :: []) =
  inl (secrets_add.msg_file_error "/nowhere" err).
Proof.
  intros err.
  assert (Forall (λ e, is_Some (example_SplitKeyValue e)) ["PASSWORD=secret"]) as Henv
    by (constructor; [by eexists|constructor]).
  assert (Forall (λ f, ∃ data, example_ReadFile f = inl data) ["/home/user/cert.pem"]) as Hpre
    by (constructor; [by eexists|constructor]).
  assert (example_ReadFile "/nowhere" = inr err) as Hbad by reflexivity.
  split; [by split_and!|].
  exact (parseSecrets_first_unreadable_file example_SplitKeyValue example_EncodeToString
           example_ReadFile example_Base ["PASSWORD=secret"] ["/home/user/cert.pem"] []
           "/nowhere" err Henv Hpre Hbad).
Defined.

(** ** ping: the printed response *)

Lemma HasPrefix_append (a b : string) : HasPrefix (a +:+ b) a = true.
Proof.
  induction a as [|c a IH]; simpl; [by destruct b|]. by rewrite decide_True.
Qed.

Lemma ContainsStr_unfold (s sub : string) :
  ContainsStr s sub =
  if HasPrefix s sub then true
  else match s with
       | EmptyString => false
       | String _ s' => ContainsStr s' sub
       end.
Proof. by destruct s. Qed.

Lemma ContainsStr_prefix (a b : string) : ContainsStr (a +:+ b) a = true.
Proof. by rewrite ContainsStr_unfold, HasPrefix_append. Qed.

Lemma ContainsStr_append (a s sub : string) :
  ContainsStr s sub = true → ContainsStr (a +:+ s) sub = true.
Proof.
  intros Hs. induction a as [|c a IH]; [done|].
  rewrite ContainsStr_unfold. destruct (HasPrefix _ sub); [done|]. exact IH.
Qed.

Lemma string_app_assoc (a b c : string) : (a +:+ b) +:+ c = a +:+ b +:+ c.
Proof.
  induction a as [|x a IH]; [done|].
  change (String x ((a +:+ b) +:+ c) = String x (a +:+ b +:+ c)). by rewrite IH.
Qed.

(** X25. What ping prints. When the server call fails, the command
    returns its error and prints nothing. Otherwise it returns no error and
    prints one text, which contains the line of the server version and the
    line of the authenticated user with the address between angle brackets,
    whatever the server URL, the versions and the address are. *)
Theorem ping_run_output (serverURL version : string) (pingResp : error + pingPayload) :
  match pingResp with
  | inl err => ping_run serverURL version pingResp = ([], Some err)
  | inr p =>
      ∃ text, ping_run serverURL version pingResp = ([Println text], None) ∧
        ContainsStr text ("REANA server version: " +:+ ReanaServerVersion p) = true ∧
        ContainsStr text ("Authenticated as: <" +:+ Email p +:+ ">") = true
  end.
Proof.
  destruct pingResp as [err|p]; [done|]. eexists. split; [done|].
  unfold ping_response. split.
  - apply ContainsStr_append.
    rewrite <-(string_app_assoc "REANA server version: " (ReanaServerVersion p)).
    rewrite string_app_assoc. apply ContainsStr_prefix.
  - do 3 apply ContainsStr_append.
    change ("> " +:+ newline) with (">" +:+ " " +:+ newline).
    rewrite <-(string_app_assoc (Email p) ">").
    rewrite <-(string_app_assoc "Authenticated as: <" (Email p +:+ ">")).
    rewrite string_app_assoc. apply ContainsStr_prefix.
Qed.

(** The response of the test of the command (ping_test.go). *)
Example ping_run_test :
  ∃ text,
    ping_run "https://localhost:8080" "0.9.0a5"
      (inr {| ReanaServerVersion := "0.9.0a5"; Email := "john.doe@example.org" |}) =
    ([Println text], None) ∧
    ContainsStr text "REANA server version: 0.9.0a5" = true ∧
    ContainsStr text "Authenticated as: <john.doe@example.org>" = true.
Proof. eexists. split; [reflexivity|]. split; vm_compute; reflexivity. Qed.
